(** * FormDataUtil: the FormData <-> nested-object codec

    A shallow embedding of [src/formdata/FormDataUtil.ts]
    ([FormDataUtil.toObject] and [FormDataUtil.fromObject]) and the
    properties of the codec, followed by [TextUtil.pluralize] and
    [TextUtil.truncate].

    Conventions of the embedding.
    - Strings are byte strings (UTF-8); the bracket characters, the decimal
      digits and the ASCII white space are single bytes, so splitting and
      digit tests on bytes agree with the same operations on code units.
    - The decoder builds a tree of freshly created containers, so its
      objects are modelled as values: a plain object is its list of own
      properties in the order of their creation, an array is its list of
      elements (holes read as [undefined]) with its other own properties.
      The order in which JavaScript enumerates the keys of such an object
      (array indices first, in ascending order) is [own_keys].
    - The encoder distinguishes objects by identity ([WeakSet]), so its
      input lives in a heap of objects addressed by locations.  A plain
      object of the heap is given by its own enumerable properties in the
      order [for .. in] visits them; a list in another order stands for
      no object, and what is proved for every list holds in particular for
      the lists that stand for objects.
    - A binary entry is named by the object it was made from:
      [FormData.append] keeps a [File] and wraps a bare [Blob] in a new
      [File] of the same bytes.
    - An effectful call returns an [outcome]: a result, a thrown error, or
      [Beyond] where the call leaves the fragment of JavaScript that the
      embedding covers (prototype mutation through [__proto__], property
      access on host objects such as [File], IEEE rounding of an index).
      The objects of the input are ordinary objects with data properties
      and the built-in methods; the limits of the engine (the depth of the
      call stack) are not part of the embedding. *)

From Stdlib Require Import ZArith String Ascii Sorted.
From stdpp Require Import gmap strings list pretty.

Set Warnings "-register-all,-clear-no-such-hyp".

(** ** Outcomes *)

Inductive error : Type :=
| TypeError
| RangeError
| CyclicReference.

Inductive outcome (A : Type) : Type :=
| Ok (a : A)
| Throws (e : error)
| Beyond
| OutOfFuel.

Arguments Ok {A} a.
Arguments Throws {A} e.
Arguments Beyond {A}.
Arguments OutOfFuel {A}.

#[global] Instance outcome_ret : MRet outcome := fun A a => Ok a.
#[global] Instance outcome_bind : MBind outcome := fun A B f m =>
  match m with
  | Ok a => f a
  | Throws e => Throws e
  | Beyond => Beyond
  | OutOfFuel => OutOfFuel
  end.

(** [forEach]/[for .. of] with an early exit on the first failure. *)
Fixpoint foldM {A B : Type} (f : A -> B -> outcome A) (a : A) (l : list B)
  : outcome A :=
  match l with
  | [] => Ok a
  | b :: l' => a' ← f a b; foldM f a' l'
  end.

(** ** Strings *)

Definition is_bracket (c : ascii) : bool :=
  (Ascii.eqb c "[" || Ascii.eqb c "]")%bool.

Definition is_digit (c : ascii) : bool :=
  ((48 <=? nat_of_ascii c) && (nat_of_ascii c <=? 57))%nat%bool.

(** [StrWhiteSpaceChar] restricted to ASCII: TAB, LF, VT, FF, CR, SP. *)
Definition is_ascii_space (c : ascii) : bool :=
  (((9 <=? nat_of_ascii c) && (nat_of_ascii c <=? 13))
   || (nat_of_ascii c =? 32))%nat%bool.

Fixpoint string_forallb (p : ascii -> bool) (s : string) : bool :=
  match s with
  | EmptyString => true
  | String c s' => p c && string_forallb p s'
  end.

Fixpoint string_existsb (p : ascii -> bool) (s : string) : bool :=
  match s with
  | EmptyString => false
  | String c s' => p c || string_existsb p s'
  end.

(** [/^\d+$/.test(key)] *)
Definition all_digits (key : string) : bool :=
  match key with
  | EmptyString => false
  | _ => string_forallb is_digit key
  end.

(** [key.split(/[\[\]]+/)]: the segments between maximal runs of bracket
    characters; a run at either end leaves an empty segment there, and the
    empty string splits into one empty segment. *)
Fixpoint split_brackets (s : string) : list string :=
  match s with
  | EmptyString => [EmptyString]
  | String c s' =>
      if is_bracket c then
        match s' with
        | String c' _ =>
            if is_bracket c' then split_brackets s'
            else EmptyString :: split_brackets s'
        | EmptyString => EmptyString :: split_brackets s'
        end
      else
        match split_brackets s' with
        | seg :: segs => String c seg :: segs
        | [] => [String c EmptyString]
        end
  end.

(** [key.split(/[\[\]]+/).filter((k) => k !== '')] (line 44). *)
Definition key_segments (key : string) : list string :=
  filter (fun k : string => k ≠ EmptyString) (split_brackets key).

(** The value of a run of decimal digits. *)
Fixpoint digits_value (acc : N) (s : string) : N :=
  match s with
  | EmptyString => acc
  | String c s' =>
      digits_value (10 * acc + N.of_nat (nat_of_ascii c - 48)) s'
  end.

Fixpoint take_digits (s : string) : string :=
  match s with
  | EmptyString => EmptyString
  | String c s' => if is_digit c then String c (take_digits s') else EmptyString
  end.

Fixpoint skip_spaces (s : string) : string :=
  match s with
  | EmptyString => EmptyString
  | String c s' => if is_ascii_space c then skip_spaces s' else s
  end.

(** [parseInt(s, 10)]: leading white space, an optional sign, then the
    longest run of digits; [None] is [NaN].  White space outside ASCII and
    integers that a double does not hold exactly are beyond the embedding. *)
Definition parseInt10 (s : string) : outcome (option Z) :=
  let digits (neg : bool) (t : string) : outcome (option Z) :=
    match take_digits t with
    | EmptyString => Ok None
    | ds =>
        let n := digits_value 0 ds in
        if (n <? 2 ^ 53)%N
        then Ok (Some (if neg then (- Z.of_N n)%Z else Z.of_N n))
        else Beyond
    end in
  match skip_spaces s with
  | EmptyString => Ok None
  | String c t =>
      if (128 <=? nat_of_ascii c)%nat then Beyond
      else if Ascii.eqb c "-" then digits true t
      else if Ascii.eqb c "+" then digits false t
      else digits false (String c t)
  end.

(** [ToString] of the number [parseInt] returned, as a property key. *)
Definition number_key (n : option Z) : string :=
  match n with
  | None => "NaN"
  | Some z => pretty z
  end.

(** An array index is a canonical numeric string below [2^32 - 1]. *)
Definition array_index (key : string) : option nat :=
  if all_digits key then
    let n := digits_value 0 key in
    if (n <? 4294967295)%N && bool_decide (pretty n = key)
    then Some (N.to_nat n) else None
  else None.

(** ** The decoder's value tree *)

Inductive jsval : Type :=
| JUndef                          (* undefined, and the holes of an array *)
| JNum (n : N)                    (* the [length] of an array *)
| JStr (s : string)               (* a text entry *)
| JFile (id : nat)                (* a binary entry, a host object *)
| JFun (name : string)            (* a built-in method, read by inheritance *)
| JObj (props : list (string * jsval))
| JArr (elems : list jsval) (props : list (string * jsval)).

Inductive jstype : Type :=
| TUndefined | TNumber | TString | TFunction | TObject.

Definition typeof (v : jsval) : jstype :=
  match v with
  | JUndef => TUndefined
  | JNum _ => TNumber
  | JStr _ => TString
  | JFun _ => TFunction
  | JFile _ | JObj _ | JArr _ _ => TObject
  end.

Definition is_object (v : jsval) : bool :=
  match typeof v with TObject => true | _ => false end.

Definition is_undefined (v : jsval) : bool :=
  match v with JUndef => true | _ => false end.

Definition isArray (v : jsval) : bool :=
  match v with JArr _ _ => true | _ => false end.

(** Own properties, in the order of their creation. *)
Fixpoint own_get (props : list (string * jsval)) (key : string)
  : option jsval :=
  match props with
  | [] => None
  | (k, v) :: props' => if String.eqb k key then Some v else own_get props' key
  end.

Fixpoint own_set (props : list (string * jsval)) (key : string) (v : jsval)
  : list (string * jsval) :=
  match props with
  | [] => [(key, v)]
  | (k, w) :: props' =>
      if String.eqb k key then (k, v) :: props'
      else (k, w) :: own_set props' key v
  end.

(** Writing element [i] of an array extends it with holes when needed. *)
Definition write_index (elems : list jsval) (i : nat) (v : jsval)
  : list jsval :=
  if decide (i < length elems) then <[i := v]> elems
  else elems ++ replicate (i - length elems) JUndef ++ [v].

(** The string-keyed properties that a plain object and an array inherit
    (ECMAScript [Object.prototype] with Annex B, [Array.prototype]); all
    are writable methods, [__proto__] apart. *)
Definition object_prototype_names : list string :=
  [ "constructor"; "hasOwnProperty"; "isPrototypeOf"; "propertyIsEnumerable";
    "toLocaleString"; "toString"; "valueOf"; "__defineGetter__";
    "__defineSetter__"; "__lookupGetter__"; "__lookupSetter__" ].

Definition array_prototype_names : list string :=
  [ "at"; "concat"; "copyWithin"; "entries"; "every"; "fill"; "filter";
    "find"; "findIndex"; "findLast"; "findLastIndex"; "flat"; "flatMap";
    "forEach"; "includes"; "indexOf"; "join"; "keys"; "lastIndexOf"; "map";
    "pop"; "push"; "reduce"; "reduceRight"; "reverse"; "shift"; "slice";
    "some"; "sort"; "splice"; "toReversed"; "toSorted"; "toSpliced";
    "unshift"; "values"; "with" ].

Definition inherited (names : list string) (key : string) : outcome jsval :=
  if String.eqb key "__proto__" then Beyond
  else if bool_decide (key ∈ names) then Ok (JFun key)
  else Ok JUndef.

(** [current[key]] as a read. *)
Definition get (current : jsval) (key : string) : outcome jsval :=
  match current with
  | JObj props =>
      match own_get props key with
      | Some v => Ok v
      | None => inherited object_prototype_names key
      end
  | JArr elems props =>
      if String.eqb key "length" then Ok (JNum (N.of_nat (length elems)))
      else match array_index key with
           | Some i => Ok (default JUndef (elems !! i))
           | None =>
               match own_get props key with
               | Some v => Ok v
               | None =>
                   inherited (array_prototype_names ++ object_prototype_names)
                             key
               end
           end
  | JUndef => Throws TypeError
  | JNum _ | JStr _ | JFile _ | JFun _ => Beyond
  end.

(** The update of an own property slot of a container. *)
Definition store (current : jsval) (key : string) (v : jsval) : jsval :=
  match current with
  | JObj props => JObj (own_set props key v)
  | JArr elems props =>
      match array_index key with
      | Some i => JArr (write_index elems i v) props
      | None => JArr elems (own_set props key v)
      end
  | _ => current
  end.

(** [current[key] = v] in strict mode (class bodies are strict): an own
    property is overwritten and a missing one is created, the [length] of
    an array refuses a value that is not a valid length, a primitive
    refuses new properties. *)
Definition set (current : jsval) (key : string) (v : jsval) : outcome jsval :=
  match current with
  | JObj props =>
      match own_get props key with
      | Some _ => Ok (store current key v)
      | None =>
          if String.eqb key "__proto__" then Beyond
          else Ok (store current key v)
      end
  | JArr elems props =>
      if String.eqb key "length" then
        match v with
        | JObj [] => Throws RangeError
        | _ => Beyond
        end
      else
        match array_index key, own_get props key with
        | None, None =>
            if String.eqb key "__proto__" then Beyond
            else Ok (store current key v)
        | _, _ => Ok (store current key v)
        end
  | JUndef | JNum _ | JStr _ => Throws TypeError
  | JFile _ | JFun _ => Beyond
  end.

(** [array.push(v)].  The method is read as a property of the array, so
    an own property [push] (the walk creates one for the key [a[push][x]])
    hides [Array.prototype.push], and calling what is no function throws a
    [TypeError].  The built-in method appends, and throws a [RangeError]
    when the array has the largest length already. *)
Definition push (array : jsval) (v : jsval) : outcome jsval :=
  method ← get array "push";
  match method, array with
  | JFun name, JArr elems props =>
      if String.eqb name "push" then
        if (N.of_nat (length elems) <? 4294967295)%N
        then Ok (JArr (elems ++ [v]) props)
        else Throws RangeError
      else Beyond
  | JFun _, _ => Beyond
  | _, _ => Throws TypeError
  end.

(** ** [FormDataUtil.toObject] *)

(** [keys.pop()]: the last key and the keys before it. *)
Fixpoint pop (keys : list string) : option (list string * string) :=
  match keys with
  | [] => None
  | [k] => Some ([], k)
  | k :: keys' =>
      match pop keys' with
      | Some (init, lastKey) => Some (k :: init, lastKey)
      | None => None
      end
  end.

(** Line 21: [/^\d+$/.test(key) ? [] : {}]. *)
Definition new_container (key : string) : jsval :=
  if all_digits key then JArr [] [] else JObj [].

(** Line 20: the test that decides whether [current[key]] is replaced. *)
Definition needs_container (current : jsval) (key : string) : outcome bool :=
  if negb (is_object current) then Ok true
  else v ← get current key; Ok (is_undefined v || negb (is_object v)).

(** Lines 26-40: the placement of the value at the last key. *)
Definition place (current : jsval) (lastKey : string) (value : jsval)
  : outcome jsval :=
  if String.eqb lastKey "" then
    if negb (isArray current) then Ok current else push current value
  else if isArray current then
    index ← parseInt10 lastKey;
    set current (number_key index) value
  else
    old ← get current lastKey;
    if negb (is_undefined old) then
      if isArray old then
        pushed ← push old value; Ok (store current lastKey pushed)
      else set current lastKey (JArr [old; value] [])
    else set current lastKey value.

(** Lines 18-40.  The loop descends through one container per key and the
    placement mutates the last one in place; on values this is the update
    of the path from the target down to that container. *)
Fixpoint walk (current : jsval) (keys : list string) (lastKey : string)
  (value : jsval) : outcome jsval :=
  match keys with
  | [] => place current lastKey value
  | key :: keys' =>
      create ← needs_container current key;
      current1 ← (if create : bool then set current key (new_container key)
                  else Ok current);
      child ← get current1 key;
      child' ← walk child keys' lastKey value;
      Ok (store current1 key child')
  end.

(** Lines 14-41. *)
Definition assignNestedValue (target : jsval) (keys : list string)
  (value : jsval) : outcome jsval :=
  match pop keys with
  | None => Ok target
  | Some (keys', lastKey) =>
      if String.eqb lastKey "" then Ok target
      else walk target keys' lastKey value
  end.

(** The value of a [FormData] entry: a text, or the binary entry made
    from the [Blob] or [File] object [id]. *)
Inductive entry_value : Type :=
| EText (s : string)
| EBlob (id : nat).

Definition form_data : Type := list (string * entry_value).

Definition entry_jsval (e : entry_value) : jsval :=
  match e with
  | EText s => JStr s
  | EBlob id => JFile id
  end.

(** Lines 11-49. *)
Definition toObject (formData : form_data) : outcome jsval :=
  foldM (fun obj '(key, value) =>
           assignNestedValue obj (key_segments key) (entry_jsval value))
        (JObj []) formData.

(** ** The encoder's input: values and a heap of objects *)

Definition loc : Type := nat.

Inductive value : Type :=
| VNull
| VUndef
| VBool (b : bool)
| VNum (text : string)     (* a number, carried by its [String(..)] image *)
| VStr (s : string)
| VOther                   (* a function, a symbol, a bigint *)
| VRef (a : loc).          (* an object, by identity *)

(** The key of a [Map] entry, by what its conversion to a string gives:
    [KText text] is a key with the string form [text] (a string, a number,
    a boolean, [null], [undefined], an object with the usual [toString]),
    [KSymbol description] is a symbol. *)
Inductive map_key : Type :=
| KText (text : string)
| KSymbol (description : string).

(** The kinds of object that [fromObject] tells apart, in the order of its
    tests.  A [Date] with a valid time is carried by its [toISOString()]
    image; [OInvalidDate] is a [Date] whose time is [NaN] (as
    [new Date(NaN)]), on which [toISOString()] throws.  A plain object is
    given by its own enumerable properties in enumeration order. *)
Inductive object : Type :=
| ODate (iso : string)
| OInvalidDate
| OBlob
| OArray (items : list value)
| OMap (entries : list (map_key * value))
| OSet (items : list value)
| OPlain (props : list (string * value)).

(** The accumulator and the set of objects being serialized. *)
Record enc_state : Type := EncState {
  form : form_data;
  seen : gset loc
}.

(** [form.append(key, v)] *)
Definition append (st : enc_state) (key : string) (v : entry_value)
  : enc_state :=
  {| form := form st ++ [(key, v)]; seen := seen st |}.

(** [namespace!] passed to [append]: an absent name reads "undefined". *)
Definition ns_name (namespace : option string) : string :=
  default "undefined" namespace.

(** [namespace ? `${namespace}[${segment}]` : segment] *)
Definition child_key (namespace : option string) (segment : string) : string :=
  match namespace with
  | Some ns =>
      if bool_decide (ns = "") then segment
      else ns +:+ "[" +:+ segment +:+ "]"
  | None => segment
  end.

(** [namespace ? .. : ..]: an absent or empty namespace is falsy. *)
Definition truthy (namespace : option string) : bool :=
  match namespace with
  | Some ns => negb (bool_decide (ns = ""))
  | None => false
  end.

(** [String(key)] of the key of a [Map] entry. *)
Definition key_text (key : map_key) : string :=
  match key with
  | KText text => text
  | KSymbol description => "Symbol(" +:+ description +:+ ")"
  end.

(** [namespace ? `${namespace}[${key}]` : String(key)] (line 88): a
    template literal refuses a symbol with a [TypeError], [String(..)]
    converts it. *)
Definition map_form_key (namespace : option string) (key : map_key)
  : outcome string :=
  match key with
  | KText text => Ok (child_key namespace text)
  | KSymbol _ =>
      if truthy namespace then Throws TypeError else Ok (key_text key)
  end.

(** [String(obj)] of a primitive. *)
Definition primitive_text (obj : value) : string :=
  match obj with
  | VBool true => "true"
  | VBool false => "false"
  | VNum text => text
  | VStr s => s
  | _ => ""
  end.

(** The elements of an array with their indices, as [forEach] visits them. *)
Fixpoint indexed (i : nat) (items : list value) : list (string * value) :=
  match items with
  | [] => []
  | item :: items' => (pretty i, item) :: indexed (S i) items'
  end.

(** ** [FormDataUtil.fromObject] *)

(** Lines 63-119.  [st] holds [form] and [seen], which every recursive call
    shares; the recursion is bounded by [fuel]. *)
Fixpoint fromObject (fuel : nat) (h : gmap loc object) (obj : value)
  (st : enc_state) (namespace : option string) : outcome enc_state :=
  match fuel with
  | 0 => OutOfFuel
  | S fuel' =>
      let each (st : enc_state) (kv : string * value) :=
        fromObject fuel' h kv.2 st (Some (child_key namespace kv.1)) in
      match obj with
      | VNull | VUndef => Ok st
      | VRef a =>
          if bool_decide (a ∈ seen st) then Throws CyclicReference
          else
            let st1 := {| form := form st; seen := {[a]} ∪ seen st |} in
            match h !! a with
            | None => Beyond
            | Some o =>
                st2 ← match o with
                      | ODate iso =>
                          Ok (append st1 (ns_name namespace) (EText iso))
                      | OInvalidDate => Throws RangeError
                      | OBlob =>
                          Ok (append st1 (ns_name namespace) (EBlob a))
                      | OArray items => foldM each st1 (indexed 0 items)
                      | OMap entries =>
                          foldM (fun st kv =>
                                   formKey ← map_form_key namespace kv.1;
                                   fromObject fuel' h kv.2 st (Some formKey))
                                st1 entries
                      | OSet items => foldM each st1 (indexed 0 items)
                      | OPlain props =>
                          foldM (fun st kv =>
                                   match kv.2 with
                                   | VUndef => Ok st
                                   | _ => each st kv
                                   end) st1 props
                      end;
                Ok {| form := form st2; seen := seen st2 ∖ {[a]} |}
            end
      | VBool _ | VNum _ | VStr _ =>
          Ok (append st (ns_name namespace) (EText (primitive_text obj)))
      | VOther => Ok st
      end
  end.

(** The defaults of a top-level call: a fresh [FormData] and a fresh
    [WeakSet]. *)
Definition fresh : enc_state := {| form := []; seen := ∅ |}.

(** A top-level call: a fresh [FormData], no namespace, a fresh [WeakSet]. *)
Definition encode (h : gmap loc object) (obj : value) : outcome form_data :=
  st ← fromObject (S (size h)) h obj fresh None;
  Ok (form st).

(** ** Notions used by the properties *)

Inductive container_kind : Type :=
| Sequence
| Mapping.

Definition kind (v : jsval) : option container_kind :=
  match v with
  | JArr _ _ => Some Sequence
  | JObj _ => Some Mapping
  | _ => None
  end.

(** The value found by reading the keys of [path] one after the other. *)
Fixpoint lookup_path (v : jsval) (path : list string) : option jsval :=
  match path with
  | [] => Some v
  | key :: path' =>
      match get v key with
      | Ok child => lookup_path child path'
      | _ => None
      end
  end.









(** The entry that a leaf of the encoder stands for: a primitive, a
    [Date] with a valid time, a binary blob. *)
Definition leaf_entry (h : gmap loc object) (obj : value)
  : option entry_value :=
  match obj with
  | VBool _ | VNum _ | VStr _ => Some (EText (primitive_text obj))
  | VRef a =>
      match h !! a with
      | Some (ODate iso) => Some (EText iso)
      | Some OBlob => Some (EBlob a)
      | _ => None
      end
  | _ => None
  end.

(** ** Value trees, for the round trip *)

Inductive primitive : Type :=
| PStr (s : string)
| PNum (text : string)
| PBool (b : bool).

Definition prim_value (p : primitive) : value :=
  match p with
  | PStr s => VStr s
  | PNum text => VNum text
  | PBool b => VBool b
  end.

(** A nested value built from plain objects, arrays and primitives. *)
Inductive tree : Type :=
| TPrim (p : primitive)
| TArr (items : list tree)
| TObj (props : list (string * tree)).

(** [repr h obj t]: the value [obj] of the heap [h] unfolds to [t]. *)
Inductive repr (h : gmap loc object) : value -> tree -> Prop :=
| repr_prim p :
    repr h (prim_value p) (TPrim p)
| repr_arr a items ts :
    h !! a = Some (OArray items) ->
    Forall2 (repr h) items ts ->
    repr h (VRef a) (TArr ts)
| repr_obj a props tps :
    h !! a = Some (OPlain props) ->
    Forall2 (fun kv kt => kv.1 = kt.1 /\ repr h kv.2 kt.2) props tps ->
    repr h (VRef a) (TObj tps).

(** The same structure with every leaf as the string form of the
    primitive: what a decode of the encoding is compared with. *)
Fixpoint stringify (t : tree) : jsval :=
  match t with
  | TPrim p => JStr (primitive_text (prim_value p))
  | TArr items => JArr (map stringify items) []
  | TObj props => JObj (map (fun kt => (kt.1, stringify kt.2)) props)
  end.

(** A key that survives the bracket notation: not empty, no bracket, and
    not the accessor [__proto__]. *)
Definition plain_segment (key : string) : bool :=
  negb (String.eqb key "") && negb (string_existsb is_bracket key)
  && negb (String.eqb key "__proto__").

(** Trees of nested plain objects that the bracket notation carries: the
    keys of an object are distinct plain segments, a nested object has at
    least one property, the key of a primitive is no method of
    [Object.prototype] and the key of an object is not a run of digits. *)
Fixpoint well_keyed (t : tree) : bool :=
  match t with
  | TPrim _ => true
  | TArr _ => false
  | TObj props =>
      bool_decide (NoDup props.*1)
      && forallb (fun kt =>
           plain_segment kt.1
           && match kt.2 with
              | TPrim _ => negb (bool_decide (kt.1 ∈ object_prototype_names))
              | TArr _ => false
              | TObj cprops =>
                  negb (all_digits kt.1)
                  && match cprops with [] => false | _ => true end
              end
           && well_keyed kt.2) props
  end.

(** A route continued from one level up, through [key]. *)
Definition below (key : string) (r : list string * string * string)
  : list string * string * string :=
  (key :: r.1.1, r.1.2, r.2).

(** The walks that a tree of nested objects is decoded by: the keys down
    to the object that holds a primitive, its key there, and its text. *)
Fixpoint routes (t : tree) : list (list string * string * string) :=
  match t with
  | TPrim _ | TArr _ => []
  | TObj props =>
      flat_map (fun kt =>
        match kt.2 with
        | TPrim p => [([], kt.1, primitive_text (prim_value p))]
        | _ => map (below kt.1) (routes kt.2)
        end) props
  end.

(** [k[k1]..[kn]], the key that [child_key] builds along a path. *)
Fixpoint brackets (segments : list string) : string :=
  match segments with
  | [] => ""
  | s :: segments' => "[" +:+ s +:+ "]" +:+ brackets segments'
  end.

Definition path_key (path : list string) : string :=
  match path with
  | [] => ""
  | k :: segments => k +:+ brackets segments
  end.

Definition path_namespace (path : list string) : option string :=
  match path with
  | [] => None
  | _ => Some (path_key path)
  end.

(** Decoding walk by walk, as [toObject] does key by key. *)
Definition decode_routes (target : jsval)
  (rs : list (list string * string * string)) : outcome jsval :=
  foldM (fun obj r => walk obj r.1.1 r.1.2 (JStr r.2)) target rs.

(** The entry that the encoder emits for a route below [path]. *)
Definition route_entry (path : list string)
  (r : list string * string * string) : string * entry_value :=
  (path_key (path ++ r.1.1 ++ [r.1.2]), EText r.2).

Fixpoint tsize (t : tree) : nat :=
  match t with
  | TPrim _ => 1
  | TArr items => S (list_sum (map tsize items))
  | TObj props => S (list_sum (map (fun kt => tsize kt.2) props))
  end.

(** The objects being serialized unfold to larger trees than [t]. *)
Definition seen_above (h : gmap loc object) (visited : gset loc) (t : tree)
  : Prop :=
  forall b t', b ∈ visited -> repr h (VRef b) t' -> tsize t < tsize t'.

(** ** Notions used by the further properties of the codec *)

(** A key without its bracket characters. *)
Fixpoint strip_brackets (s : string) : string :=
  match s with
  | EmptyString => EmptyString
  | String c s' =>
      if is_bracket c then strip_brackets s' else String c (strip_brackets s')
  end.

(** The segments of a key written one after the other. *)
Fixpoint join (segments : list string) : string :=
  match segments with
  | [] => EmptyString
  | s :: segments' => s +:+ join segments'
  end.

(** Every array among the own properties has at most [bound] elements and
    no own property besides them. *)
Definition arrays_within (bound : nat) (props : list (string * jsval))
  : Prop :=
  Forall (fun kv => match kv.2 with
                    | JArr elems xs => length elems <= bound /\ xs = []
                    | _ => True
                    end) props.

(** The entries of a collection as the encoder iterates it: the elements
    of an array or a [Set] under their indices, the entries of a [Map]
    under the string form of their keys, the own properties of a plain
    object. *)
Definition entries_of (o : object) : list (string * value) :=
  match o with
  | ODate _ | OInvalidDate | OBlob => []
  | OArray items | OSet items => indexed 0 items
  | OMap entries => map (fun kv => (key_text kv.1, kv.2)) entries
  | OPlain entries => entries
  end.

(** The keys of the entries convert to a string under [namespace]: no
    symbol is the key of a [Map] that is encoded under a namespace. *)
Definition keys_convert (namespace : option string) (o : object) : bool :=
  match o with
  | OMap entries =>
      forallb (fun kv => match kv.1 with
                         | KSymbol _ => negb (truthy namespace)
                         | KText _ => true
                         end) entries
  | _ => true
  end.

(** A value that the encoder neither descends into nor throws on: a
    primitive, [null], [undefined], an unsupported value, a [Date] with a
    valid time or a blob. *)
Definition shallow (h : gmap loc object) (obj : value) : bool :=
  match obj with
  | VRef a =>
      match h !! a with
      | Some (ODate _) | Some OBlob => true
      | _ => false
      end
  | _ => true
  end.

(** What a shallow child adds to the form: one entry for a leaf, nothing
    for [null], [undefined] and unsupported values. *)
Definition shallow_entry (h : gmap loc object) (namespace : option string)
  (kv : string * value) : list (string * entry_value) :=
  match leaf_entry h kv.2 with
  | Some e => [(child_key namespace kv.1, e)]
  | None => []
  end.

(** The result of serializing into [existing] entries, from the result of
    serializing into an empty form. *)
Definition after_existing (existing : form_data) (r : outcome enc_state)
  : outcome enc_state :=
  st ← r; Ok {| form := existing ++ form st; seen := seen st |}.

(** A final segment that [parseInt] reads no number from: its first
    character is an ASCII character that is no white space, sign or
    digit. *)
Definition starts_without_number (lastKey : string) : bool :=
  match lastKey with
  | EmptyString => false
  | String c _ =>
      negb (is_ascii_space c) && negb (128 <=? nat_of_ascii c)%nat
      && negb (Ascii.eqb c "-") && negb (Ascii.eqb c "+")
      && negb (is_digit c)
  end.

(** The objects that the encoder iterates: arrays, maps, sets and plain
    objects. *)
Definition is_collection (o : object) : bool :=
  match o with
  | ODate _ | OInvalidDate | OBlob => false
  | _ => true
  end.

(** The text that a leaf of the encoder is sent as: the string form of a
    primitive, the ISO image of a [Date] with a valid time. *)
Definition leaf_text (h : gmap loc object) (obj : value) : option string :=
  match obj with
  | VBool _ | VNum _ | VStr _ => Some (primitive_text obj)
  | VRef a =>
      match h !! a with
      | Some (ODate iso) => Some iso
      | _ => None
      end
  | _ => None
  end.

(** The property that the placement of lines 26-40 writes: the last key
    itself in a mapping, the string form of [parseInt(lastKey, 10)] in a
    sequence. *)
Definition placed_key (current : jsval) (lastKey : string) : outcome string :=
  if isArray current then
    index ← parseInt10 lastKey; Ok (number_key index)
  else Ok lastKey.

(** A pair with the keys [keys] before its last key [lastKey] ends on
    [path]: the keys lead to [container], a container on the path, and the
    placement writes its slot [key], through which the path goes on. *)
Definition ends_on_path (target : jsval) (keys : list string)
  (lastKey : string) (path : list string) (container : jsval)
  (key : string) : Prop :=
  (exists rest, path = keys ++ key :: rest) /\
  lookup_path target keys = Some container /\
  placed_key container lastKey = Ok key.

(** The order in which JavaScript enumerates string keys
    ([OrdinaryOwnPropertyKeys], behind [for .. in] and [Object.keys]): the
    array indices in ascending order, then the other keys in the order of
    their creation. *)
Definition is_index (key : string) : bool :=
  bool_decide (is_Some (array_index key)).

Definition index_of (key : string) : nat := default 0 (array_index key).

Fixpoint insert_index (key : string) (sorted : list string) : list string :=
  match sorted with
  | [] => [key]
  | k :: sorted' =>
      if index_of key <=? index_of k then key :: sorted
      else k :: insert_index key sorted'
  end.

Definition key_order (keys : list string) : list string :=
  foldr insert_index [] (filter (fun k => is_index k = true) keys)
  ++ filter (fun k => is_index k = false) keys.

(** The own keys of a decoded object as JavaScript enumerates them. *)
Definition own_keys (props : list (string * jsval)) : list string :=
  key_order props.*1.

(** ** [TextUtil] *)

(** What a call returns or the message of the [Error] it throws. *)
Inductive js_result (A : Type) : Type :=
| Returns (a : A)
| Raises (message : string).

Arguments Returns {A} a.
Arguments Raises {A} message.

(** [TextUtil.pluralize] (lines 148-166) for an integral [num]; reading
    an array outside its bounds gives [undefined], here [None]. *)
Definition pluralize (num : Z) (titles : list string)
  : js_result (option string) :=
  if negb (length titles =? 2)%nat && negb (length titles =? 3)%nat then
    Raises "Titles array must have 2 or 3 elements"
  else
    let number := Z.abs num in
    if (length titles =? 2)%nat then
      Returns (if (number =? 1)%Z then titles !! 0%nat else titles !! 1%nat)
    else
      let cases : list nat := [2; 0; 1; 1; 1; 2] in
      if ((4 <? number mod 100) && (number mod 100 <? 20))%Z then
        Returns (titles !! 2%nat)
      else
        Returns (case ← cases !! Z.to_nat (if (number mod 10 <? 5)%Z
                                            then (number mod 10)%Z else 5%Z);
                 titles !! case).

(** [text.slice(0, end)] on the code units of a string: a negative [end]
    counts from the end of the text. *)
Definition slice_to {U : Type} (text : list U) (end_ : Z) : list U :=
  if (end_ <? 0)%Z
  then take (Z.to_nat (Z.max (Z.of_nat (length text) + end_) 0)) text
  else take (Z.to_nat end_) text.

(** [TextUtil.truncate] (lines 176-179) on the code units of the text,
    for an integral [maxLength]; [ellipsis] is the third argument or its
    default. *)
Definition truncate {U : Type} (text : list U) (maxLength : Z)
  (ellipsis : list U) : list U :=
  if (Z.of_nat (length text) <=? maxLength)%Z then text
  else slice_to text maxLength ++ ellipsis.

(** * Properties *)

(** ** Outcomes and own properties *)

Lemma bind_Ok {A B : Type} (m : outcome A) (f : A -> outcome B) (b : B) :
  m ≫= f = Ok b -> exists a, m = Ok a /\ f a = Ok b.
Proof. destruct m; simpl; intros H; try discriminate. eauto. Qed.

Ltac inv_bind H :=
  let a := fresh "a" in
  let Ha := fresh "Ha" in
  apply bind_Ok in H; destruct H as (a & Ha & H).

Lemma own_get_own_set (props : list (string * jsval)) key v :
  own_get (own_set props key v) key = Some v.
Proof.
  induction props as [|[k w] props IH]; simpl.
  - by rewrite String.eqb_refl.
  - destruct (String.eqb k key) eqn:E; simpl; rewrite E; auto.
Qed.

Lemma own_get_own_set_ne (props : list (string * jsval)) key key' v :
  key <> key' -> own_get (own_set props key v) key' = own_get props key'.
Proof.
  intros Hne. induction props as [|[k w] props IH]; simpl.
  - apply String.eqb_neq in Hne. by rewrite Hne.
  - destruct (String.eqb k key) eqn:E; simpl.
    + apply String.eqb_eq in E. subst k.
      apply String.eqb_neq in Hne. by rewrite Hne.
    + destruct (String.eqb k key'); auto.
Qed.

Lemma write_index_lookup (elems : list jsval) i v :
  write_index elems i v !! i = Some v.
Proof.
  unfold write_index. destruct (decide (i < length elems)).
  - by apply list_lookup_insert_eq.
  - rewrite lookup_app_r by lia.
    rewrite lookup_app_r; rewrite length_replicate; [|lia].
    by replace (i - length elems - (i - length elems)) with 0 by lia.
Qed.

(** A slot that was just stored reads back, [length] of an array apart. *)
Lemma get_store current key v k :
  kind current = Some k ->
  (isArray current = true -> key <> "length") ->
  get (store current key v) key = Ok v.
Proof.
  destruct current; simpl; try discriminate; intros _ Hlen.
  - by rewrite own_get_own_set.
  - specialize (Hlen eq_refl). apply String.eqb_neq in Hlen.
    destruct (array_index key) eqn:Hi; simpl; rewrite Hlen, Hi.
    + by rewrite write_index_lookup.
    + by rewrite own_get_own_set.
Qed.

Lemma store_kind current key v : kind (store current key v) = kind current.
Proof. destruct current; simpl; auto. by destruct (array_index key). Qed.

Lemma set_Ok current key v result :
  set current key v = Ok result ->
  result = store current key v /\ is_Some (kind current) /\
  (isArray current = true -> key <> "length").
Proof.
  destruct current; simpl; try discriminate.
  - intros H. split; [|split; [eauto|discriminate]].
    destruct (own_get props key); [congruence|].
    destruct (String.eqb key "__proto__"); congruence.
  - destruct (String.eqb key "length") eqn:Hlen.
    { destruct v as [| | | | |[|]|]; discriminate. }
    intros H. apply String.eqb_neq in Hlen.
    split; [|split; [eauto|done]].
    destruct (array_index key), (own_get props key); try congruence.
    destruct (String.eqb key "__proto__"); congruence.
Qed.

(** The method that [array.push] finds when the array has no own property
    of that name. *)
Lemma get_push elems props :
  own_get props "push" = None ->
  get (JArr elems props) "push" = Ok (JFun "push").
Proof. intros Hown. cbn. by rewrite Hown. Qed.

Lemma get_own_push elems props method :
  own_get props "push" = Some method ->
  get (JArr elems props) "push" = Ok method.
Proof. intros Hown. cbn. by rewrite Hown. Qed.

Lemma push_builtin elems props v :
  own_get props "push" = None ->
  push (JArr elems props) v =
    if (N.of_nat (length elems) <? 4294967295)%N
    then Ok (JArr (elems ++ [v]) props)
    else Throws RangeError.
Proof.
  intros Hown. unfold push. rewrite get_push by done. reflexivity.
Qed.

Lemma push_Ok array v result :
  push array v = Ok result -> kind result = kind array.
Proof.
  unfold push. intros H. inv_bind H.
  destruct a as [| | | |name| |]; try discriminate.
  destruct array as [| | | | | |elems props]; try discriminate.
  destruct (String.eqb name "push"); [|discriminate].
  destruct (N.of_nat (length elems) <? 4294967295)%N; [|discriminate].
  by injection H as <-.
Qed.

(** ** The walk keeps the kind of the container it works on *)

Lemma place_kind current lastKey value result k :
  kind current = Some k ->
  place current lastKey value = Ok result ->
  kind result = Some k.
Proof.
  intros Hk. unfold place.
  destruct (String.eqb lastKey "").
  { destruct (isArray current); simpl.
    - intros H. apply push_Ok in H. congruence.
    - intros [= <-]. done. }
  destruct (isArray current) eqn:Harr.
  { intros H. inv_bind H. apply set_Ok in H as (-> & _ & _).
    by rewrite store_kind. }
  intros H. inv_bind H.
  destruct (is_undefined a); simpl in H.
  - apply set_Ok in H as (-> & _ & _). by rewrite store_kind.
  - destruct (isArray a).
    + inv_bind H. injection H as <-. by rewrite store_kind.
    + apply set_Ok in H as (-> & _ & _). by rewrite store_kind.
Qed.

Lemma walk_kind keys : forall current lastKey value result k,
  kind current = Some k ->
  walk current keys lastKey value = Ok result ->
  kind result = Some k.
Proof.
  destruct keys as [|key keys]; simpl; intros current lastKey value result k Hk H.
  - eauto using place_kind.
  - inv_bind H. inv_bind H. inv_bind H. inv_bind H. injection H as <-.
    rewrite store_kind. destruct a.
    + apply set_Ok in Ha0 as (-> & _ & _). by rewrite store_kind.
    + by injection Ha0 as <-.
Qed.

(** ** Splitting keys *)

Lemma key_segments_nonempty key : EmptyString ∉ key_segments key.
Proof.
  unfold key_segments. intros H. apply list_elem_of_filter in H. by destruct H.
Qed.

Lemma foldM_app {A B : Type} (f : A -> B -> outcome A) a l1 l2 :
  foldM f a (l1 ++ l2) = foldM f a l1 ≫= fun a' => foldM f a' l2.
Proof.
  revert a. induction l1 as [|b l1 IH]; intros a; simpl; [done|].
  destruct (f a b); simpl; auto.
Qed.

(** ** Indices of a sequence *)

Lemma digits_value_acc s : forall acc,
  digits_value acc s
  = (acc * 10 ^ N.of_nat (String.length s) + digits_value 0 s)%N.
Proof.
  induction s as [|c s IH]; intros acc.
  - simpl. lia.
  - cbn [digits_value String.length]. rewrite IH.
    rewrite (IH (10 * 0 + _)%N).
    rewrite Nat2N.inj_succ, N.pow_succ_r'. lia.
Qed.

Lemma pretty_N_char_digit d :
  (d < 10)%N ->
  is_digit (pretty_N_char d) = true /\
  N.of_nat (nat_of_ascii (pretty_N_char d) - 48) = d.
Proof.
  intros Hd.
  assert (d = 0 \/ d = 1 \/ d = 2 \/ d = 3 \/ d = 4 \/ d = 5 \/ d = 6
          \/ d = 7 \/ d = 8 \/ d = 9)%N as Hcases by lia.
  repeat (destruct Hcases as [->|Hcases]; [by split|]). by subst.
Qed.

Lemma pretty_N_go_digits x : forall s,
  string_forallb is_digit s = true ->
  string_forallb is_digit (pretty_N_go x s) = true /\
  digits_value 0 (pretty_N_go x s)
  = (x * 10 ^ N.of_nat (String.length s) + digits_value 0 s)%N.
Proof.
  induction (N.lt_wf_0 x) as [x _ IH]; intros s Hs.
  assert (x = 0 \/ 0 < x)%N as [->|Hpos] by lia.
  - rewrite pretty_N_go_0. split; [done|]. lia.
  - rewrite pretty_N_go_step by done.
    destruct (pretty_N_char_digit (x `mod` 10)%N) as [Hdigit Hvalue];
      [by apply N.mod_lt|].
    destruct (IH (x `div` 10)%N ltac:(by apply N.div_lt)
                (String (pretty_N_char (x `mod` 10)) s)) as [Hall Hval].
    { simpl. by rewrite Hdigit, Hs. }
    split; [done|]. rewrite Hval.
    cbn [digits_value String.length]. rewrite Hvalue.
    rewrite (digits_value_acc s), Nat2N.inj_succ, N.pow_succ_r'.
    pose proof (N.div_mod x 10 ltac:(done)) as Hdm. nia.
Qed.

(** The decimal form of a number reads back as the number. *)
Lemma pretty_N_digits (n : N) :
  all_digits (pretty n) = true /\ digits_value 0 (pretty n) = n.
Proof.
  unfold pretty, pretty_N. case_decide as Hn; [by subst|].
  destruct (pretty_N_go_digits n "" eq_refl) as [Hall Hval].
  simpl in Hval. rewrite N.mul_1_r, N.add_0_r in Hval.
  split; [|done]. unfold all_digits.
  destruct (pretty_N_go n "") eqn:Hgo; [|done].
  simpl in Hval. lia.
Qed.

Lemma pretty_Z_of_N (n : N) : pretty (Z.of_N n) = pretty n.
Proof. by destruct n. Qed.

Lemma array_index_pretty (n : N) :
  (n < 4294967295)%N -> array_index (pretty n) = Some (N.to_nat n).
Proof.
  intros Hn. unfold array_index.
  destruct (pretty_N_digits n) as [-> ->].
  apply N.ltb_lt in Hn. rewrite Hn. by rewrite bool_decide_eq_true_2.
Qed.

Lemma is_digit_spec c :
  is_digit c = true ->
  is_ascii_space c = false /\ (128 <=? nat_of_ascii c)%nat = false /\
  Ascii.eqb c "-" = false /\ Ascii.eqb c "+" = false.
Proof.
  unfold is_digit, is_ascii_space. intros H.
  apply andb_true_iff in H as [Hlo Hhi].
  apply Nat.leb_le in Hlo, Hhi.
  repeat split.
  - apply orb_false_iff. split.
    + apply andb_false_iff. right. apply Nat.leb_gt. lia.
    + apply Nat.eqb_neq. lia.
  - apply Nat.leb_gt. lia.
  - apply Ascii.eqb_neq. intros ->. vm_compute in Hlo. lia.
  - apply Ascii.eqb_neq. intros ->. vm_compute in Hlo. lia.
Qed.

Lemma take_digits_all s :
  string_forallb is_digit s = true -> take_digits s = s.
Proof.
  induction s as [|c s IH]; [done|]. simpl. intros H.
  apply andb_true_iff in H as [-> H]. by rewrite IH.
Qed.

Lemma parseInt10_digits key :
  all_digits key = true ->
  (digits_value 0 key < 2 ^ 53)%N ->
  parseInt10 key = Ok (Some (Z.of_N (digits_value 0 key))).
Proof.
  intros Hall Hsmall. destruct key as [|c key]; [done|].
  unfold all_digits in Hall. pose proof Hall as Hc. simpl in Hc.
  apply andb_true_iff in Hc as [Hc _].
  destruct (is_digit_spec c Hc) as (Hspace & Hascii & Hminus & Hplus).
  unfold parseInt10. cbn [skip_spaces]. rewrite Hspace, Hascii, Hminus, Hplus.
  rewrite take_digits_all by done.
  apply N.ltb_lt in Hsmall. by rewrite Hsmall.
Qed.



Lemma write_index_lookup_ne (elems : list jsval) i j v :
  i <> j ->
  default JUndef (write_index elems i v !! j) = default JUndef (elems !! j).
Proof.
  intros Hne. unfold write_index. case_decide as Hi.
  - by rewrite list_lookup_insert_ne.
  - destruct (decide (j < length elems)) as [Hj|Hj].
    + by rewrite lookup_app_l.
    + rewrite (lookup_ge_None_2 elems j) by lia.
      rewrite lookup_app_r by lia.
      destruct (decide (j - length elems < i - length elems)) as [Hlt|Hge].
      * rewrite lookup_app_l by (rewrite length_replicate; lia).
        by rewrite lookup_replicate_2.
      * rewrite lookup_ge_None_2; [done|].
        rewrite length_app, length_replicate. simpl. lia.
Qed.

(** An array index has one spelling. *)
Lemma array_index_inj key1 key2 i :
  array_index key1 = Some i -> array_index key2 = Some i -> key1 = key2.
Proof.
  unfold array_index. intros H1 H2.
  destruct (all_digits key1); [|done]. destruct (all_digits key2); [|done].
  destruct (_ && _) eqn:E1 in H1; [|done].
  destruct (_ && _) eqn:E2 in H2; [|done].
  apply andb_true_iff in E1 as [_ E1]. apply andb_true_iff in E2 as [_ E2].
  apply bool_decide_eq_true_1 in E1, E2.
  injection H1 as <-. injection H2 as H2. apply N2Nat.inj in H2.
  congruence.
Qed.

(** ** Own properties at a known place *)



(** ** Slots that a store leaves alone *)

Lemma get_store_ne current key other v :
  key <> other ->
  (isArray current = true -> other <> "length") ->
  get (store current key v) other = get current other.
Proof.
  intros Hne Hlen. destruct current as [| | | | |props|elems props]; try done.
  - simpl. by rewrite own_get_own_set_ne.
  - specialize (Hlen eq_refl). apply String.eqb_neq in Hlen.
    cbn [store]. destruct (array_index key) as [i|] eqn:Hi; cbn [get];
      rewrite Hlen.
    + destruct (array_index other) as [j|] eqn:Hj; [|done].
      rewrite write_index_lookup_ne; [done|].
      intros ->. apply Hne. eauto using array_index_inj.
    + destruct (array_index other); [done|].
      by rewrite own_get_own_set_ne.
Qed.

(** ** C3: the append sentinel *)

(** C3 (fails on the code).  The filter of line 44 discards every empty
    segment, the one left by a trailing [[]] included, so no key reaches
    the append branch of line 26: decoding the single pair
    [("items[]", "x")] binds [items] to the text "x", not to a sequence
    holding it. *)
Theorem C3_append_sentinel_is_discarded :
  (forall key, EmptyString ∉ key_segments key) /\
  key_segments "items[]" = ["items"] /\
  toObject [("items[]", EText "x")] = Ok (JObj [("items", JStr "x")]).
Proof. split; [exact key_segments_nonempty|]. split; reflexivity. Qed.

(** ** C4: coalescing on a mapping *)









(** ** C5: two appends *)

(** C5.  Decoding [("items[]","x"), ("items[]","y")] yields
    [{ items: ["x","y"] }]. *)
Theorem C5_items_twice :
  toObject [("items[]", EText "x"); ("items[]", EText "y")] =
    Ok (JObj [("items", JArr [JStr "x"; JStr "y"] [])]).
Proof. reflexivity. Qed.

(** ** C7: keys that make the decoder raise *)

Lemma assignNestedValue_empty_key target value :
  assignNestedValue target (key_segments "") value = Ok target.
Proof. reflexivity. Qed.

(** C7 (fails on the code).  A pair with the empty key leaves the tree as
    it is, but the decoder does raise: the key [0[length][x]] makes it
    create an array at [0], read its [length] (a number, so not an object)
    and assign a fresh object to it, which throws a [RangeError]. *)
Theorem C7_toObject_can_raise :
  (forall before after value,
     toObject (before ++ ("", value) :: after) = toObject (before ++ after)) /\
  key_segments "0[length][x]" = ["0"; "length"; "x"] /\
  toObject [("0[length][x]", EText "v")] = Throws RangeError.
Proof.
  split; [|split; reflexivity].
  intros before after value. unfold toObject.
  rewrite !foldM_app. simpl. f_equal.
Qed.

(** ** C9: the kind of a created container *)






(** ** C6: what happens to a container that later pairs meet *)

Lemma pop_snoc keys lastKey : pop (keys ++ [lastKey]) = Some (keys, lastKey).
Proof.
  induction keys as [|k keys IH]; simpl; [done|].
  rewrite IH. by destruct keys.
Qed.

Lemma lookup_path_container current key path c :
  lookup_path current (key :: path) = Some c ->
  is_Some (kind c) ->
  exists child, get current key = Ok child /\ is_Some (kind child) /\
                lookup_path child path = Some c.
Proof.
  simpl. destruct (get current key) as [child| | |] eqn:Hget; try done.
  intros Hpath Hc. exists child. split; [done|]. split; [|done].
  destruct path as [|key' path]; simpl in Hpath.
  - by injection Hpath as ->.
  - destruct child; simpl in *; try done; eauto.
Qed.

Lemma get_container_not_length current key child :
  get current key = Ok child -> is_Some (kind child) ->
  isArray current = true -> key <> "length".
Proof.
  destruct current; simpl; try done. intros Hget [k Hk] _ ->.
  simpl in Hget. injection Hget as <-. done.
Qed.

(** The placement writes the slot that [placed_key] names and no other. *)
Lemma place_frame current lastKey value result other :
  lastKey <> "" ->
  is_Some (kind current) ->
  place current lastKey value = Ok result ->
  placed_key current lastKey <> Ok other ->
  (isArray current = true -> other <> "length") ->
  get result other = get current other.
Proof.
  intros Hne Hkind Hplace Hslot Hlen. unfold place in Hplace.
  apply String.eqb_neq in Hne. rewrite Hne in Hplace.
  unfold placed_key in Hslot.
  destruct (isArray current) eqn:Harr.
  - inv_bind Hplace. rewrite Ha in Hslot. cbn [mbind outcome_bind] in Hslot.
    apply set_Ok in Hplace as (-> & _ & _).
    apply get_store_ne; [congruence|by rewrite Harr].
  - assert (Hother : lastKey <> other) by congruence.
    assert (Hlen' : isArray current = true -> other <> "length")
      by (by rewrite Harr).
    inv_bind Hplace.
    destruct (is_undefined a); cbn [negb] in Hplace.
    + apply set_Ok in Hplace as (-> & _ & _). by apply get_store_ne.
    + destruct (isArray a).
      * inv_bind Hplace. injection Hplace as <-. by apply get_store_ne.
      * apply set_Ok in Hplace as (-> & _ & _). by apply get_store_ne.
Qed.

Lemma lookup_path_step current key path child :
  get current key = Ok child ->
  lookup_path current (key :: path) = lookup_path child path.
Proof. intros Hget. simpl. by rewrite Hget. Qed.

Lemma push_appends elems props v result :
  push (JArr elems props) v = Ok result ->
  result = JArr (elems ++ [v]) props.
Proof.
  unfold push. intros H. inv_bind H.
  destruct a as [| | | |name| |]; try discriminate.
  destruct (String.eqb name "push"); [|discriminate].
  destruct (N.of_nat (length elems) <? 4294967295)%N; [|discriminate].
  by injection H as <-.
Qed.

(** A container among the elements or properties of a sequence is still
    there after an append. *)
Lemma get_appended elems props v key child :
  get (JArr elems props) key = Ok child ->
  is_Some (kind child) ->
  get (JArr (elems ++ [v]) props) key = Ok child.
Proof.
  cbn [get]. destruct (String.eqb key "length").
  { intros [= <-] [k Hk]. done. }
  destruct (array_index key) as [i|]; [|done].
  intros [= <-] [k Hk]. f_equal.
  destruct (elems !! i) as [e|] eqn:He; [|done].
  by rewrite (lookup_app_l_Some _ _ _ _ He).
Qed.

(** The placement on a slot that holds a sequence, in a mapping: the
    sequence receives the value, and what lies below it stays. *)
Lemma place_on_sequence props key elems xs value result path c :
  key <> "" ->
  get (JObj props) key = Ok (JArr elems xs) ->
  place (JObj props) key value = Ok result ->
  lookup_path (JArr elems xs) path = Some c ->
  is_Some (kind c) ->
  exists c', lookup_path result (key :: path) = Some c' /\ kind c' = kind c.
Proof.
  intros Hne Hget Hplace Hpath Hc. unfold place in Hplace.
  apply String.eqb_neq in Hne. rewrite Hne in Hplace.
  cbn [isArray] in Hplace. rewrite Hget in Hplace.
  cbn [mbind outcome_bind is_undefined negb isArray] in Hplace.
  inv_bind Hplace. injection Hplace as <-.
  apply push_appends in Ha as ->.
  rewrite (lookup_path_step _ _ _ (JArr (elems ++ [value]) xs))
    by (by apply (get_store (JObj props) _ _ Mapping)).
  destruct path as [|key' path].
  - simpl in Hpath. injection Hpath as <-. by eexists.
  - apply lookup_path_container in Hpath as (child & Hchild & Hkind & Hpath);
      [|done].
    exists c. split; [|done].
    rewrite (lookup_path_step _ _ _ child); [done|].
    by apply get_appended.
Qed.

(** A pair and a container of the tree: the container keeps its kind
    unless the pair ends on the path to it, in a sequence or on a slot that
    holds no sequence; and it is not touched at all when the pair neither
    walks through the path nor ends on it. *)
Lemma walk_off_path path : forall current keys lastKey value result c,
  lastKey <> "" ->
  lookup_path current path = Some c ->
  is_Some (kind c) ->
  walk current keys lastKey value = Ok result ->
  (forall container key,
     ends_on_path current keys lastKey path container key ->
     isArray container = false /\
     exists elems xs, get container key = Ok (JArr elems xs)) ->
  exists c', lookup_path result path = Some c' /\ kind c' = kind c /\
             (~ path `prefix_of` keys ->
              (forall container key,
                 ~ ends_on_path current keys lastKey path container key) ->
              c' = c).
Proof.
  induction path as [|key' path IH];
    intros current keys lastKey value result c Hne Hpath Hc Hwalk Hends.
  - simpl in Hpath. injection Hpath as ->. exists result.
    split; [done|]. split.
    + destruct Hc as [k Hk]. rewrite Hk. eauto using walk_kind.
    + intros Hnot. destruct Hnot. apply prefix_nil.
  - pose proof Hpath as Hwhole.
    apply lookup_path_container in Hpath as (child & Hget & Hchild & Hpath);
      [|done].
    assert (Hcur : is_Some (kind current)).
    { destruct current; simpl in *; try done; eauto. }
    assert (Hlen : isArray current = true -> key' <> "length").
    { eauto using get_container_not_length. }
    destruct keys as [|key keys].
    + cbn [walk] in Hwalk.
      assert (Hcases : placed_key current lastKey = Ok key' \/
                       placed_key current lastKey <> Ok key').
      { destruct (placed_key current lastKey) as [k| | |]; try (by right).
        destruct (decide (k = key')) as [->|Hk]; [by left|].
        right. congruence. }
      destruct Hcases as [Hon|Hoff].
      * destruct (Hends current key') as (Harr & elems & xs & Hslot).
        { split; [by exists path|]. by split. }
        assert (child = JArr elems xs) as -> by congruence.
        unfold placed_key in Hon. rewrite Harr in Hon. injection Hon as ->.
        destruct current as [| | | | |props|]; try done.
        destruct (place_on_sequence props key' elems xs value result path c)
          as (c' & Hc' & Hkind); try done.
        exists c'. split; [done|]. split; [done|].
        intros _ Hnone. destruct (Hnone (JObj props) key').
        split; [by exists path|]. by split.
      * assert (Hsame : get result key' = get current key').
        { eapply place_frame; eauto. }
        exists c. split; [|done].
        rewrite Hget in Hsame. by rewrite (lookup_path_step _ _ _ child).
    + destruct (decide (key = key')) as [->|Hkey].
      * assert (Hobj : is_object current = true).
        { destruct current; simpl in *; try done; by destruct Hcur. }
        assert (Hreuse : is_undefined child || negb (is_object child) = false).
        { destruct child; simpl in *; try done; by destruct Hchild. }
        cbn [walk] in Hwalk. unfold needs_container in Hwalk.
        rewrite Hobj in Hwalk. cbn [negb] in Hwalk. rewrite Hget in Hwalk.
        cbn [mbind outcome_bind] in Hwalk. rewrite Hreuse in Hwalk.
        cbn [mbind outcome_bind] in Hwalk. rewrite Hget in Hwalk.
        cbn [mbind outcome_bind] in Hwalk.
        inv_bind Hwalk. injection Hwalk as <-.
        assert (Hdown : forall container key,
          ends_on_path child keys lastKey path container key ->
          ends_on_path current (key' :: keys) lastKey (key' :: path)
                       container key).
        { intros container key ([rest ->] & Hcontainer & Hplaced).
          split; [by exists rest|]. split; [|done].
          by rewrite (lookup_path_step _ _ _ child). }
        destruct (IH child keys lastKey value a c Hne Hpath Hc Ha)
          as (c' & Hpath' & Hkind & Hsame).
        { intros container key Hon. by apply Hends, Hdown. }
        exists c'. split; [|split; [done|]].
        -- destruct Hcur as [k Hk].
           rewrite (lookup_path_step _ _ _ a); [done|].
           by apply (get_store _ _ _ k).
        -- intros Hnot Hnone. apply Hsame.
           ++ intros Hpre. apply Hnot. by apply prefix_cons.
           ++ intros container key Hon. by apply (Hnone container key), Hdown.
      * cbn [walk] in Hwalk.
        inv_bind Hwalk. inv_bind Hwalk. inv_bind Hwalk. inv_bind Hwalk.
        injection Hwalk as <-.
        assert (Hsame : get (store a0 key a2) key' = get current key').
        { destruct a.
          - apply set_Ok in Ha0 as (-> & _ & _).
            rewrite !get_store_ne; try done.
            destruct current; try done. simpl. by destruct (array_index key).
          - injection Ha0 as <-. by apply get_store_ne. }
        exists c. split; [|done].
        rewrite Hget in Hsame. by rewrite (lookup_path_step _ _ _ child).
Qed.

(** C6 (amended: a pair that ends on the path to a container may replace
    it).  When the tree holds a container at [path], a later pair leaves a
    container of the same kind there, unless its last key addresses a slot
    on the path - the keys before the last one lead to a container on the
    path and the placement writes the slot through which the path goes on
    - and that slot lies in a sequence or holds no sequence.  So a pair
    that walks through [path] keeps the container; a pair that ends on the
    path in a mapping, on a slot that holds a sequence, appends to the
    sequence and keeps every container on the path; and a pair that neither
    walks through the path nor ends on it leaves the very same container
    there. *)
Theorem C6_containers_keep_their_kind
  target path keys lastKey value result c :
  lookup_path target path = Some c ->
  is_Some (kind c) ->
  assignNestedValue target (keys ++ [lastKey]) value = Ok result ->
  (forall container key,
     ends_on_path target keys lastKey path container key ->
     isArray container = false /\
     exists elems xs, get container key = Ok (JArr elems xs)) ->
  exists c', lookup_path result path = Some c' /\ kind c' = kind c /\
             (~ path `prefix_of` keys ->
              (forall container key,
                 ~ ends_on_path target keys lastKey path container key) ->
              c' = c).
Proof.
  intros Hpath Hc. unfold assignNestedValue. rewrite pop_snoc.
  destruct (String.eqb lastKey "") eqn:Hne.
  - intros [= <-] _. eauto.
  - apply String.eqb_neq in Hne. eauto using walk_off_path.
Qed.

Lemma C6_containers_keep_their_kind_witness :
  exists c',
    lookup_path (JObj [("a", JObj [("b", JStr "x")]);
                       ("n", JArr [JStr "1"; JStr "2"] [])]) ["a"]
      = Some c' /\
    kind c' = kind (JObj [("b", JStr "x")]) /\
    (~ ["a"] `prefix_of` [] ->
     (forall container key,
        ~ ends_on_path (JObj [("a", JObj [("b", JStr "x")]); ("n", JStr "1")])
                       [] "n" ["a"] container key) ->
     c' = JObj [("b", JStr "x")]).
Proof.
  apply (C6_containers_keep_their_kind
           (JObj [("a", JObj [("b", JStr "x")]); ("n", JStr "1")])
           ["a"] [] "n" (JStr "2")
           (JObj [("a", JObj [("b", JStr "x")]);
                  ("n", JArr [JStr "1"; JStr "2"] [])])
           (JObj [("b", JStr "x")])).
  - reflexivity.
  - by eexists.
  - reflexivity.
  - intros container key ([rest [= <- <-]] & [= <-] & [=]).
Defined.

(** The three ways of a pair through or past a container, evaluated: the
    pair [a[c]] walks through the mapping at [a], the pair [("n", "2")]
    passes it by, and the pair [("s", "z")] ends on the sequence at [s],
    which receives the value. *)
Example container_kind_kept :
  toObject [("a[b]", EText "x"); ("a[c]", EText "y")]
    = Ok (JObj [("a", JObj [("b", JStr "x"); ("c", JStr "y")])]) /\
  toObject [("a[b]", EText "x"); ("n", EText "1"); ("n", EText "2")]
    = Ok (JObj [("a", JObj [("b", JStr "x")]);
                ("n", JArr [JStr "1"; JStr "2"] [])]) /\
  toObject [("s", EText "x"); ("s", EText "y"); ("s", EText "z")]
    = Ok (JObj [("s", JArr [JStr "x"; JStr "y"; JStr "z"] [])]).
Proof. repeat split. Qed.

(** Both halves of C6 fail when a later pair ends on the path to the
    container.  The mapping that [a[b]] materialized at [a] is replaced by
    a sequence when the pair [("a", "y")] follows: the coalescing of line 36
    wraps it in a new two-element array.  The same step moves the old
    mapping to [a.0], where [a[0][x]] had materialized a sequence.  And in
    a sequence the slot is the one that [parseInt] reads from the last key:
    after [0[1][x]] the pair [("0[01]", "y")] overwrites the sequence at
    [0.1] with a text. *)
Lemma C6_container_kind_not_stable :
  toObject [("a[b]", EText "x")] = Ok (JObj [("a", JObj [("b", JStr "x")])]) /\
  toObject [("a[b]", EText "x"); ("a", EText "y")] =
    Ok (JObj [("a", JArr [JObj [("b", JStr "x")]; JStr "y"] [])]) /\
  (kind <$> lookup_path (JObj [("a", JObj [("b", JStr "x")])]) ["a"])
    = Some (Some Mapping) /\
  (kind <$> lookup_path
     (JObj [("a", JArr [JObj [("b", JStr "x")]; JStr "y"] [])]) ["a"])
    = Some (Some Sequence) /\
  placed_key (JObj [("a", JObj [("b", JStr "x")])]) "a" = Ok "a" /\
  toObject [("a[0][x]", EText "v")] =
    Ok (JObj [("a", JObj [("0", JArr [] [("NaN", JStr "v")])])]) /\
  toObject [("a[0][x]", EText "v"); ("a", EText "y")] =
    Ok (JObj [("a", JArr [JObj [("0", JArr [] [("NaN", JStr "v")])];
                          JStr "y"] [])]) /\
  (kind <$> lookup_path
     (JObj [("a", JObj [("0", JArr [] [("NaN", JStr "v")])])]) ["a"; "0"])
    = Some (Some Sequence) /\
  (kind <$> lookup_path
     (JObj [("a", JArr [JObj [("0", JArr [] [("NaN", JStr "v")])];
                        JStr "y"] [])]) ["a"; "0"])
    = Some (Some Mapping) /\
  toObject [("0[1][x]", EText "v")] =
    Ok (JObj [("0", JArr [JUndef; JArr [] [("NaN", JStr "v")]] [])]) /\
  toObject [("0[1][x]", EText "v"); ("0[01]", EText "y")] =
    Ok (JObj [("0", JArr [JUndef; JStr "y"] [])]) /\
  (kind <$> lookup_path
     (JObj [("0", JArr [JUndef; JArr [] [("NaN", JStr "v")]] [])]) ["0"; "1"])
    = Some (Some Sequence) /\
  (kind <$> lookup_path
     (JObj [("0", JArr [JUndef; JStr "y"] [])]) ["0"; "1"])
    = Some None /\
  placed_key (JArr [JUndef; JArr [] [("NaN", JStr "v")]] []) "01" = Ok "1".
Proof. repeat split. Qed.

(** ** C2: cycle detection *)

Section Cycles.

Context (h : gmap loc object).











End Cycles.



(** An object reached along two different paths is no cycle. *)
Example shared_object_is_no_cycle :
  encode (list_to_map [ (0, OPlain [("x", VRef 1); ("y", VRef 1)]);
                        (1, OArray [VStr "s"]) ]) (VRef 0)
  = Ok [("x[0]", EText "s"); ("y[0]", EText "s")].
Proof. reflexivity. Qed.

(** ** C8: absent values *)

Lemma foldM_seen {B : Type} (f : enc_state -> B -> outcome enc_state) l :
  (forall st b st', f st b = Ok st' -> seen st' = seen st) ->
  forall st st', foldM f st l = Ok st' -> seen st' = seen st.
Proof.
  intros Hf. induction l as [|b l IH]; simpl; intros st st' H.
  - by injection H as <-.
  - inv_bind H. rewrite (IH _ _ H). eauto.
Qed.

(** A call that returns leaves [seen] as it found it. *)
Lemma fromObject_seen h : forall fuel obj st namespace st',
  fromObject fuel h obj st namespace = Ok st' -> seen st' = seen st.
Proof.
  induction fuel as [|fuel IH]; intros obj st namespace st'; [done|].
  destruct obj as [| | b | text | s | | a]; simpl;
    try (by intros [= <-]).
  case_bool_decide as Ha; [done|].
  destruct (h !! a) as [o|]; [|done]. intros H. inv_bind H.
  injection H as <-. simpl.
  assert (seen a0 = {[a]} ∪ seen st) as ->; [|set_solver].
  destruct o as [iso| | |items|entries|items|props].
  - by injection Ha0 as <-.
  - done.
  - by injection Ha0 as <-.
  - apply foldM_seen in Ha0; [done|]. intros ? ? ?. apply IH.
  - apply foldM_seen in Ha0; [done|]. intros st1 [k v] st2 H.
    inv_bind H. by apply IH in H.
  - apply foldM_seen in Ha0; [done|]. intros ? ? ?. apply IH.
  - apply foldM_seen in Ha0; [done|]. intros st1 [k v] st2. simpl.
    destruct v; try apply IH. by intros [= <-].
Qed.

Lemma foldM_ext_seen {B : Type} (a : loc)
  (f g : enc_state -> B -> outcome enc_state) l :
  (forall st b st', f st b = Ok st' -> seen st' = seen st) ->
  (forall st b, a ∈ seen st -> f st b = g st b) ->
  forall st, a ∈ seen st -> foldM f st l = foldM g st l.
Proof.
  intros Hseen Hfg. induction l as [|b l IH]; simpl; intros st Ha; [done|].
  rewrite <- (Hfg st b Ha).
  destruct (f st b) as [st1| | |] eqn:Hf; simpl; try done.
  apply IH. by rewrite (Hseen _ _ _ Hf).
Qed.

(** While an object is being serialized its own contents are not read
    again, so they may change without changing what a call returns. *)
Lemma fromObject_heap_update h a o' : forall fuel obj st namespace,
  a ∈ seen st ->
  fromObject fuel h obj st namespace =
  fromObject fuel (<[a := o']> h) obj st namespace.
Proof.
  induction fuel as [|fuel IH]; intros obj st namespace Ha; [done|].
  destruct obj as [| | b | text | s | | a']; simpl; try done.
  case_bool_decide as Ha'; [done|].
  assert (a <> a') by (intros ->; done).
  rewrite lookup_insert_ne by done.
  destruct (h !! a') as [o|]; [|done].
  assert (Hin : a ∈ {[a']} ∪ seen st) by set_solver.
  destruct o as [iso| | |items|entries|items|props]; try done; f_equal;
    apply (foldM_ext_seen a); try done;
    try (intros ? ? ?; apply fromObject_seen);
    try (intros ? ? ?; by apply IH).
  - intros st1 [k v] st2 Hstep. inv_bind Hstep.
    by apply fromObject_seen in Hstep.
  - intros st1 [k v] Hst1. cbn [fst snd].
    destruct (map_form_key namespace k); cbn [mbind outcome_bind]; try done.
    by apply IH.
  - intros st1 [k v] st2. simpl.
    destruct v; try apply fromObject_seen. by intros [= <-].
  - intros st1 [k v] Hst1. simpl. destruct v; try done; by apply IH.
Qed.

(** C8.  A [null] or [undefined] input leaves the accumulator as it is,
    so a top-level call on it returns an empty form; a property whose
    value is [undefined] adds nothing to what the object encodes to; and
    [{ a: 1, b: undefined }] encodes to the single pair of [a]. *)
Theorem C8_absent_values_emit_nothing :
  (forall fuel h st namespace,
     fromObject (S fuel) h VNull st namespace = Ok st /\
     fromObject (S fuel) h VUndef st namespace = Ok st) /\
  (forall h, encode h VNull = Ok [] /\ encode h VUndef = Ok []) /\
  (forall fuel h a before key after st namespace,
     h !! a = Some (OPlain (before ++ (key, VUndef) :: after)) ->
     fromObject fuel h (VRef a) st namespace =
     fromObject fuel (<[a := OPlain (before ++ after)]> h) (VRef a) st
       namespace) /\
  encode {[ 0 := OPlain [("a", VNum "1"); ("b", VUndef)] ]} (VRef 0)
    = Ok [("a", EText "1")].
Proof.
  split; [done|]. split; [done|]. split; [|reflexivity].
  intros [|fuel] h a before key after st namespace Ha; [done|]. simpl.
  case_bool_decide as Hseen; [done|].
  rewrite Ha, lookup_insert_eq. f_equal.
  rewrite !foldM_app. simpl.
  set (f := fun (st : enc_state) (kv : string * value) =>
              match kv.2 with
              | VUndef => Ok st
              | _ => fromObject fuel h kv.2 st
                       (Some (child_key namespace kv.1))
              end).
  set (g := fun (st : enc_state) (kv : string * value) =>
              match kv.2 with
              | VUndef => Ok st
              | _ => fromObject fuel (<[a := OPlain (before ++ after)]> h)
                       kv.2 st (Some (child_key namespace kv.1))
              end).
  assert (Hf : forall st1 kv st2, f st1 kv = Ok st2 -> seen st2 = seen st1).
  { intros st1 [k v] st2. unfold f. simpl.
    destruct v; try apply fromObject_seen. by intros [= <-]. }
  assert (Hfg : forall st1 kv, a ∈ seen st1 -> f st1 kv = g st1 kv).
  { intros st1 [k v] Hst1. unfold f, g. simpl.
    destruct v; try done; by apply fromObject_heap_update. }
  assert (Hin : a ∈ {[a]} ∪ seen st) by set_solver.
  rewrite <- (foldM_ext_seen a f g before Hf Hfg) by done.
  destruct (foldM f _ before) as [st1| | |] eqn:Hbefore; simpl; try done.
  apply foldM_seen in Hbefore; [|done].
  apply (foldM_ext_seen a f g after Hf Hfg). by rewrite Hbefore.
Qed.

(** ** C10: a leaf at top level *)

(** C10 (amended: the [Date] holds a valid time).  A top-level call (no
    namespace, nothing visited) on a string, a number, a boolean, a [Date]
    with a valid time or a blob appends exactly one entry, under the name
    "undefined". *)
Theorem C10_top_level_leaf h obj e fuel st :
  leaf_entry h obj = Some e ->
  seen st = ∅ ->
  fromObject (S fuel) h obj st None
    = Ok {| form := form st ++ [("undefined", e)]; seen := ∅ |} /\
  encode h obj = Ok [("undefined", e)].
Proof.
  intros Hleaf Hseen.
  assert (Hgen : forall fuel' st', seen st' = ∅ ->
    fromObject (S fuel') h obj st' None
      = Ok {| form := form st' ++ [("undefined", e)]; seen := ∅ |}).
  { intros fuel' [fm sn] Hsn. simpl in Hsn. subst sn.
    destruct obj as [| | b | text | s | | a]; simpl in *; try done;
      try (by injection Hleaf as <-).
    destruct (h !! a) as [[iso| | | | | |]|]; try done; injection Hleaf as <-;
      simpl; unfold append; simpl; do 2 f_equal; set_solver. }
  split; [by apply Hgen|].
  unfold encode. by rewrite Hgen.
Qed.

Lemma C10_top_level_leaf_witness :
  encode ∅ (VNum "42") = Ok [("undefined", EText "42")] /\
  encode {[ 7 := OBlob ]} (VRef 7) = Ok [("undefined", EBlob 7)] /\
  encode {[ 7 := ODate "1995-12-17T00:00:00.000Z" ]} (VRef 7)
    = Ok [("undefined", EText "1995-12-17T00:00:00.000Z")].
Proof.
  split; [|split].
  - exact (proj2 (C10_top_level_leaf ∅ (VNum "42") (EText "42") 0
                    fresh eq_refl eq_refl)).
  - exact (proj2 (C10_top_level_leaf {[ 7 := OBlob ]} (VRef 7) (EBlob 7) 0
                    fresh eq_refl eq_refl)).
  - exact (proj2 (C10_top_level_leaf
                    {[ 7 := ODate "1995-12-17T00:00:00.000Z" ]} (VRef 7)
                    (EText "1995-12-17T00:00:00.000Z") 0
                    fresh eq_refl eq_refl)).
Defined.

(** A [Date] whose time is [NaN] is a leaf that raises: [toISOString()]
    throws a [RangeError] on line 78, at top level as under any
    namespace, and no entry is appended. *)
Lemma C10_invalid_date_raises :
  encode {[ 7 := OInvalidDate ]} (VRef 7) = Throws RangeError /\
  leaf_entry {[ 7 := OInvalidDate ]} (VRef 7) = None /\
  (forall h a fuel st namespace,
     h !! a = Some OInvalidDate -> a ∉ seen st ->
     fromObject (S fuel) h (VRef a) st namespace = Throws RangeError).
Proof.
  split; [reflexivity|]. split; [reflexivity|].
  intros h a fuel st namespace Ha Hseen. cbn [fromObject].
  rewrite bool_decide_eq_false_2 by done. by rewrite Ha.
Qed.

(** ** C1: the round trip *)

(** *** Keys built by the encoder split back into their segments *)

Lemma append_cons c (s t : string) : String c s +:+ t = String c (s +:+ t).
Proof. reflexivity. Qed.

Lemma append_nil_l (s : string) : "" +:+ s = s.
Proof. reflexivity. Qed.

Lemma append_nil_r (s : string) : s +:+ "" = s.
Proof.
  induction s as [|c s IH]; [done|]. by rewrite append_cons, IH.
Qed.

Lemma append_assoc (s1 s2 s3 : string) :
  (s1 +:+ s2) +:+ s3 = s1 +:+ (s2 +:+ s3).
Proof.
  induction s1 as [|c s1 IH]; [done|]. by rewrite !append_cons, IH.
Qed.

Lemma plain_segment_spec key :
  plain_segment key = true ->
  key <> "" /\ string_existsb is_bracket key = false /\ key <> "__proto__".
Proof.
  unfold plain_segment. intros H.
  apply andb_true_iff in H as [H H3]. apply andb_true_iff in H as [H1 H2].
  apply negb_true_iff in H1, H2, H3.
  by rewrite !String.eqb_neq in *.
Qed.

Lemma split_brackets_cons (s : string) :
  exists seg segs, split_brackets s = seg :: segs.
Proof.
  induction s as [|c s (seg & segs & IH)]; simpl; [eauto|].
  rewrite IH. destruct (is_bracket c); [|eauto].
  destruct s as [|c' s]; [eauto|]. destruct (is_bracket c'); eauto.
Qed.

Lemma split_brackets_prefix (key rest seg : string) segs :
  string_existsb is_bracket key = false ->
  split_brackets rest = seg :: segs ->
  split_brackets (key +:+ rest) = (key +:+ seg) :: segs.
Proof.
  intros Hkey Hrest. induction key as [|c key IH]; [done|].
  simpl in Hkey. apply orb_false_iff in Hkey as [Hc Hkey].
  rewrite !append_cons. simpl. by rewrite Hc, (IH Hkey).
Qed.

Lemma split_brackets_open b c (rest : string) :
  is_bracket b = true -> is_bracket c = false ->
  split_brackets (String b (String c rest))
  = "" :: split_brackets (String c rest).
Proof. intros Hb Hc. simpl. by rewrite Hb, Hc. Qed.

Lemma split_brackets_run b c (rest : string) :
  is_bracket b = true -> is_bracket c = true ->
  split_brackets (String b (String c rest)) = split_brackets (String c rest).
Proof. intros Hb Hc. simpl. by rewrite Hb, Hc. Qed.

Lemma split_brackets_brackets segments :
  Forall (fun s => plain_segment s = true) segments ->
  segments <> [] ->
  split_brackets (brackets segments) = "" :: segments ++ [""].
Proof.
  induction 1 as [|s segments Hs Hall IH]; [done|]. intros _.
  apply plain_segment_spec in Hs as (Hne & Hplain & _).
  assert (Hclose : split_brackets ("]" +:+ brackets segments)
                   = "" :: segments ++ [""]).
  { destruct segments as [|s' segments]; [done|].
    specialize (IH ltac:(done)).
    change ("]" +:+ brackets (s' :: segments))
      with (String "]" (String "[" (s' +:+ "]" +:+ brackets segments))).
    by rewrite split_brackets_run. }
  destruct s as [|c s]; [done|].
  simpl in Hplain. apply orb_false_iff in Hplain as [Hc Hplain].
  change (brackets (String c s :: segments))
    with (String "[" (String c (s +:+ "]" +:+ brackets segments))).
  rewrite split_brackets_open by done. f_equal.
  change (String c (s +:+ "]" +:+ brackets segments))
    with (String c s +:+ ("]" +:+ brackets segments)).
  rewrite (split_brackets_prefix _ _ "" (segments ++ [""]));
    [|by simpl; rewrite Hc|done].
  by rewrite append_nil_r.
Qed.

Lemma filter_nonempty_plain segments :
  Forall (fun s => plain_segment s = true) segments ->
  filter (fun k : string => k <> "") segments = segments.
Proof.
  induction 1 as [|s segments Hs Hall IH]; [done|].
  apply plain_segment_spec in Hs as (Hne & _ & _).
  rewrite filter_cons_True by done. by rewrite IH.
Qed.

(** The round trip on keys: the segments of an encoded path are the path. *)
Lemma key_segments_path_key path :
  Forall (fun s => plain_segment s = true) path ->
  key_segments (path_key path) = path.
Proof.
  destruct path as [|key segments]; [done|]. intros Hall.
  apply Forall_cons in Hall as [Hkey Hall].
  pose proof (plain_segment_spec _ Hkey) as (Hne & Hplain & _).
  unfold key_segments, path_key.
  destruct segments as [|s segments].
  - simpl. rewrite append_nil_r.
    rewrite <- (append_nil_r key) at 1.
    rewrite (split_brackets_prefix key "" "" []); [|done|done].
    rewrite append_nil_r. by rewrite filter_cons_True, filter_nil.
  - rewrite (split_brackets_prefix key _ "" ((s :: segments) ++ [""]));
      [|done|by apply split_brackets_brackets].
    rewrite append_nil_r, filter_cons_True by done.
    rewrite filter_app, filter_nonempty_plain by done.
    by rewrite filter_cons_False, filter_nil, app_nil_r by (intros H; by apply H).
Qed.

Lemma path_key_nonempty path :
  Forall (fun s => plain_segment s = true) path ->
  path <> [] -> path_key path <> "".
Proof.
  destruct path as [|key segments]; [done|]. intros Hall _.
  apply Forall_cons in Hall as [Hkey _].
  apply plain_segment_spec in Hkey as (Hne & _ & _).
  destruct key; simpl; done.
Qed.

Lemma brackets_app s1 s2 : brackets (s1 ++ s2) = brackets s1 +:+ brackets s2.
Proof.
  induction s1 as [|s s1 IH]; simpl; [done|].
  by rewrite IH, !append_assoc.
Qed.

(** [child_key] extends the key of a path by one segment. *)
Lemma child_key_path path segment :
  Forall (fun s => plain_segment s = true) path ->
  child_key (path_namespace path) segment = path_key (path ++ [segment]).
Proof.
  intros Hall. destruct path as [|key segments]; simpl.
  - by rewrite append_nil_r.
  - change (key +:+ brackets segments) with (path_key (key :: segments)).
    rewrite bool_decide_eq_false_2 by (by apply path_key_nonempty).
    simpl. rewrite brackets_app. simpl.
    by rewrite append_nil_r, !append_assoc.
Qed.

(** *** Decoding the routes of a tree *)

Lemma tree_rect' (P : tree -> Prop) :
  (forall p, P (TPrim p)) ->
  (forall items, Forall P items -> P (TArr items)) ->
  (forall props, Forall (fun kt => P kt.2) props -> P (TObj props)) ->
  forall t, P t.
Proof.
  intros Hprim Harr Hobj.
  fix IH 1. intros [p|items|props].
  - apply Hprim.
  - apply Harr. induction items as [|t items IHitems]; constructor; auto.
  - apply Hobj. induction props as [|[k t] props IHprops]; constructor; auto.
Qed.

Lemma own_set_absent (props : list (string * jsval)) key v :
  own_get props key = None -> own_set props key v = props ++ [(key, v)].
Proof.
  induction props as [|[k w] props IH]; simpl; [done|].
  destruct (String.eqb k key); [done|]. intros H. by rewrite IH.
Qed.

Lemma own_set_present (props : list (string * jsval)) key v :
  own_get props key = Some v -> own_set props key v = props.
Proof.
  induction props as [|[k w] props IH]; simpl; [done|].
  destruct (String.eqb k key); [by intros [= ->]|].
  intros H. by rewrite IH.
Qed.

Lemma own_set_twice (props : list (string * jsval)) key v w :
  own_set (own_set props key v) key w = own_set props key w.
Proof.
  induction props as [|[k u] props IH]; simpl.
  - by rewrite String.eqb_refl.
  - destruct (String.eqb k key) eqn:E; simpl; rewrite E; [done|].
    by rewrite IH.
Qed.

Lemma own_get_snoc (props : list (string * jsval)) key v key' :
  own_get props key' = None ->
  own_get (props ++ [(key, v)]) key' =
    if String.eqb key key' then Some v else None.
Proof.
  induction props as [|[k w] props IH]; simpl; [done|].
  destruct (String.eqb k key'); [done|]. auto.
Qed.

Lemma inherited_undefined key :
  key <> "__proto__" -> key ∉ object_prototype_names ->
  inherited object_prototype_names key = Ok JUndef.
Proof.
  intros Hproto Hnames. unfold inherited.
  apply String.eqb_neq in Hproto. rewrite Hproto.
  by rewrite bool_decide_eq_false_2.
Qed.

Lemma inherited_not_object key v :
  key <> "__proto__" ->
  inherited object_prototype_names key = Ok v ->
  is_undefined v || negb (is_object v) = true.
Proof.
  intros Hproto. unfold inherited.
  apply String.eqb_neq in Hproto. rewrite Hproto.
  case_bool_decide; by intros [= <-].
Qed.

(** A primitive under a fresh key of a mapping is stored there. *)
Lemma walk_leaf (props : list (string * jsval)) key v :
  plain_segment key = true ->
  key ∉ object_prototype_names ->
  own_get props key = None ->
  walk (JObj props) [] key v = Ok (JObj (props ++ [(key, v)])).
Proof.
  intros Hkey Hnames Hown.
  apply plain_segment_spec in Hkey as (Hne & _ & Hproto).
  simpl. unfold place.
  apply String.eqb_neq in Hne. rewrite Hne. simpl. rewrite Hown.
  rewrite inherited_undefined by done. simpl.
  apply String.eqb_neq in Hproto. rewrite Hproto.
  by rewrite own_set_absent.
Qed.

(** A walk through a key that holds a mapping continues inside it. *)
Lemma walk_reuse (props cprops : list (string * jsval)) key keys lastKey v :
  own_get props key = Some (JObj cprops) ->
  walk (JObj props) (key :: keys) lastKey v =
    (child ← walk (JObj cprops) keys lastKey v;
     Ok (JObj (own_set props key child))).
Proof.
  intros Hown. simpl. unfold needs_container. simpl. rewrite Hown. simpl.
  by rewrite Hown.
Qed.

(** A walk through a fresh key creates a mapping there. *)
Lemma walk_create (props : list (string * jsval)) key keys lastKey v :
  plain_segment key = true ->
  all_digits key = false ->
  own_get props key = None ->
  walk (JObj props) (key :: keys) lastKey v =
    (child ← walk (JObj []) keys lastKey v;
     Ok (JObj (props ++ [(key, child)]))).
Proof.
  intros Hkey Hdigits Hown.
  apply plain_segment_spec in Hkey as (Hne & _ & Hproto).
  simpl. unfold needs_container. simpl. rewrite Hown.
  destruct (inherited object_prototype_names key) as [v0| | |] eqn:Hinh;
    try (unfold inherited in Hinh; apply String.eqb_neq in Hproto;
         rewrite Hproto in Hinh; by case_bool_decide).
  simpl. rewrite (inherited_not_object key v0) by done. simpl.
  apply String.eqb_neq in Hproto. rewrite Hproto. simpl.
  rewrite own_get_own_set. simpl.
  unfold new_container. rewrite Hdigits.
  destruct (walk (JObj []) keys lastKey v) as [child| | |]; simpl; try done.
  by rewrite own_set_twice, own_set_absent.
Qed.

Lemma walk_mapping keys props lastKey v result :
  walk (JObj props) keys lastKey v = Ok result ->
  exists props', result = JObj props'.
Proof.
  intros H. apply (walk_kind _ _ _ _ _ Mapping) in H; [|done].
  destruct result; try done. eauto.
Qed.

Lemma decode_routes_cons target q l s rs :
  decode_routes target ((q, l, s) :: rs) =
    (target' ← walk target q l (JStr s); decode_routes target' rs).
Proof. reflexivity. Qed.

Lemma decode_routes_reuse key rs : forall props cprops child,
  own_get props key = Some (JObj cprops) ->
  decode_routes (JObj cprops) rs = Ok child ->
  decode_routes (JObj props) (map (below key) rs)
    = Ok (JObj (own_set props key child)).
Proof.
  induction rs as [|[[q l] s] rs IH]; intros props cprops child Hown Hdec.
  - injection Hdec as <-. simpl. by rewrite own_set_present.
  - rewrite decode_routes_cons in Hdec. inv_bind Hdec.
    change (map (below key) ((q, l, s) :: rs))
      with ((key :: q, l, s) :: map (below key) rs).
    rewrite decode_routes_cons, (walk_reuse _ cprops) by done.
    rewrite Ha. simpl.
    apply walk_mapping in Ha as [cprops' ->].
    rewrite (IH _ cprops' child); [by rewrite own_set_twice| |done].
    apply own_get_own_set.
Qed.

Lemma decode_routes_create key rs props child :
  plain_segment key = true ->
  all_digits key = false ->
  own_get props key = None ->
  rs <> [] ->
  decode_routes (JObj []) rs = Ok child ->
  decode_routes (JObj props) (map (below key) rs)
    = Ok (JObj (props ++ [(key, child)])).
Proof.
  intros Hkey Hdigits Hown Hrs Hdec.
  destruct rs as [|[[q l] s] rs]; [done|].
  rewrite decode_routes_cons in Hdec. inv_bind Hdec.
  change (map (below key) ((q, l, s) :: rs))
    with ((key :: q, l, s) :: map (below key) rs).
  rewrite decode_routes_cons, walk_create by done.
  rewrite Ha. simpl.
  apply walk_mapping in Ha as [cprops' ->].
  rewrite (decode_routes_reuse key rs (props ++ [(key, JObj cprops')])
             cprops' child); [| |done].
  - rewrite <- (own_set_absent props key (JObj cprops')) by done.
    by rewrite own_set_twice, own_set_absent.
  - rewrite own_get_snoc by done. by rewrite String.eqb_refl.
Qed.

Lemma well_keyed_cons key child rest :
  well_keyed (TObj ((key, child) :: rest)) = true ->
  (key ∉ rest.*1) /\ plain_segment key = true /\
  match child with
  | TPrim _ => key ∉ object_prototype_names
  | TArr _ => False
  | TObj cprops => all_digits key = false /\ cprops <> []
  end /\
  well_keyed child = true /\ well_keyed (TObj rest) = true.
Proof.
  cbn [well_keyed forallb fst snd]. intros H.
  apply andb_true_iff in H as [Hnodup H].
  apply andb_true_iff in H as [H Hrest].
  apply andb_true_iff in H as [H Hchild].
  apply andb_true_iff in H as [Hkey Hcond].
  apply bool_decide_eq_true in Hnodup. simpl in Hnodup.
  apply NoDup_cons in Hnodup as [Hnotin Hnodup].
  split; [done|]. split; [done|]. split; [|split; [done|]].
  - destruct child as [p|items|[|kt cprops]]; try done.
    + apply negb_true_iff, bool_decide_eq_false in Hcond. done.
    + by rewrite andb_false_r in Hcond.
    + apply andb_true_iff in Hcond as [Hd _].
      by apply negb_true_iff in Hd.
  - apply andb_true_iff. split; [|done]. by apply bool_decide_eq_true.
Qed.

Lemma routes_cons key child rest :
  routes (TObj ((key, child) :: rest)) =
    match child with
    | TPrim p => [([], key, primitive_text (prim_value p))]
    | _ => map (below key) (routes child)
    end ++ routes (TObj rest).
Proof. reflexivity. Qed.

Lemma routes_nonempty t :
  well_keyed t = true ->
  match t with
  | TObj (_ :: _) => routes t <> []
  | _ => True
  end.
Proof.
  induction t as [p|items _|props IH] using tree_rect'; try done.
  destruct props as [|[key child] rest]; [done|]. intros Hgood.
  apply well_keyed_cons in Hgood as (_ & _ & Hcond & Hchild & _).
  apply Forall_cons in IH as [IH _]. specialize (IH Hchild).
  rewrite routes_cons.
  destruct child as [p|items|[|kt cprops]]; try done; simpl in Hcond;
    [by destruct Hcond|].
  intros H. apply app_eq_nil in H as [H _].
  apply map_eq_nil in H. done.
Qed.

Lemma decode_routes_app target rs1 rs2 :
  decode_routes target (rs1 ++ rs2) =
    (target' ← decode_routes target rs1; decode_routes target' rs2).
Proof. apply foldM_app. Qed.

(** Decoding the routes of a tree of nested objects builds the tree. *)
Lemma decode_routes_tree t :
  well_keyed t = true ->
  forall props acc,
    t = TObj props ->
    (forall key, key ∈ props.*1 -> own_get acc key = None) ->
    decode_routes (JObj acc) (routes t)
      = Ok (JObj (acc ++ map (fun kt => (kt.1, stringify kt.2)) props)).
Proof.
  induction t as [p|items _|props0 IH] using tree_rect'; try done.
  intros Hgood props acc [= <-]. revert Hgood acc.
  induction props0 as [|[key child] rest IHrest]; intros Hgood acc Hfresh.
  - simpl. by rewrite app_nil_r.
  - apply well_keyed_cons in Hgood
      as (Hnotin & Hkey & Hcond & Hchild & Hrest).
    apply Forall_cons in IH as [IHchild IH].
    specialize (IHrest IH Hrest).
    assert (Hown : own_get acc key = None) by (apply Hfresh; left).
    assert (Hnext : forall c key',
              key' ∈ rest.*1 -> own_get (acc ++ [(key, c)]) key' = None).
    { intros c key' Hin. rewrite own_get_snoc by (apply Hfresh; by right).
      destruct (String.eqb key key') eqn:E; [|done].
      apply String.eqb_eq in E. by subst. }
    rewrite routes_cons, decode_routes_app.
    cbn [map fst snd]. rewrite (cons_middle _ acc), (assoc_L (++)).
    destruct child as [p|items|cprops]; [|done|].
    + rewrite decode_routes_cons, walk_leaf by done.
      exact (IHrest _ (Hnext _)).
    + destruct Hcond as [Hdigits Hne].
      pose proof (routes_nonempty (TObj cprops) Hchild) as Hroutes.
      destruct cprops as [|kt cprops]; [done|].
      rewrite (decode_routes_create key _ acc (stringify (TObj (kt :: cprops))));
        try done.
      * exact (IHrest _ (Hnext _)).
      * by apply (IHchild Hchild (kt :: cprops) []).
Qed.

(** *** Encoding a tree of nested objects emits its routes *)

Lemma prim_value_not_ref p a : prim_value p <> VRef a.
Proof. by destruct p. Qed.

Lemma prim_value_inj p q : prim_value p = prim_value q -> p = q.
Proof. destruct p, q; simpl; congruence. Qed.

(** A value of the heap unfolds to one tree at most. *)
Lemma repr_functional h t1 : forall obj t2,
  repr h obj t1 -> repr h obj t2 -> t1 = t2.
Proof.
  induction t1 as [p|items IH|props IH] using tree_rect'; intros obj t2 H1 H2.
  - inversion H1 as [p1 Hp1| |]; subst.
    inversion H2 as [p2 Hp2|a ? ? ? ? Ha|a ? ? ? ? Ha]; subst;
      try (symmetry in Ha; by apply prim_value_not_ref in Ha).
    f_equal. apply prim_value_inj. congruence.
  - inversion H1 as [|a its ? Hlook Hall|]; subst.
    inversion H2 as [p2 Hp2|a2 its2 ts2 Hlook2 Hall2|a2 ? ? Hlook2]; subst;
      try (by apply prim_value_not_ref in Hp2); try congruence.
    assert (its2 = its) as -> by congruence. f_equal.
    clear Hlook Hlook2 H1 H2. revert ts2 Hall2.
    induction Hall as [|v t its items Hvt Hall IHall];
      intros ts2 Hall2; inversion Hall2; subst; [done|].
    apply Forall_cons in IH as [IHt IH]. f_equal; eauto.
  - inversion H1 as [| |a hps ? Hlook Hall]; subst.
    inversion H2 as [p2 Hp2|a2 ? ? Hlook2|a2 hps2 tps2 Hlook2 Hall2]; subst;
      try (by apply prim_value_not_ref in Hp2); try congruence.
    assert (hps2 = hps) as -> by congruence. f_equal.
    clear Hlook Hlook2 H1 H2. revert tps2 Hall2.
    induction Hall as [|[k v] [k' t] hps props [Hk Hvt] Hall IHall];
      intros tps2 Hall2; inversion Hall2 as [|? [k2 t2] ? ? [Hk2 Hvt2]]; subst;
      [done|].
    apply Forall_cons in IH as [IHt IH]. simpl in *. subst.
    f_equal; [f_equal|]; eauto.
Qed.

Lemma tsize_child key child props :
  (key, child) ∈ props -> tsize child < tsize (TObj props).
Proof.
  intros Hin. simpl. apply Nat.lt_succ_r.
  induction props as [|[k c] props IH]; [by apply elem_of_nil in Hin|].
  apply elem_of_cons in Hin as [[= <- <-]|Hin]; simpl; [lia|].
  specialize (IH Hin). lia.
Qed.

Lemma route_entry_below path key r :
  route_entry path (below key r) = route_entry (path ++ [key]) r.
Proof.
  unfold route_entry, below. simpl.
  by rewrite <- (assoc_L (++) path [key]).
Qed.

Lemma child_namespace path key :
  Forall (fun s => plain_segment s = true) path ->
  Some (child_key (path_namespace path) key) = path_namespace (path ++ [key]).
Proof.
  intros Hpath. rewrite child_key_path by done.
  by destruct path.
Qed.

(** The loop over the properties of an object (lines 97-107), given what
    the recursive calls on its object-valued properties return. *)
Lemma foldM_plain_props h fuel path visited :
  Forall (fun s => plain_segment s = true) path ->
  forall hprops tprops,
    Forall2 (fun kv kt => kv.1 = kt.1 /\ repr h kv.2 kt.2) hprops tprops ->
    well_keyed (TObj tprops) = true ->
    (forall kt cprops obj st,
       kt ∈ tprops -> kt.2 = TObj cprops -> repr h obj kt.2 ->
       seen st = visited ->
       fromObject (S fuel) h obj st (path_namespace (path ++ [kt.1]))
         = Ok {| form := form st
                   ++ map (route_entry (path ++ [kt.1])) (routes kt.2);
                 seen := seen st |}) ->
    forall st,
      seen st = visited ->
      foldM (fun st kv =>
               match kv.2 with
               | VUndef => Ok st
               | _ => fromObject (S fuel) h kv.2 st
                        (Some (child_key (path_namespace path) kv.1))
               end) st hprops
        = Ok {| form := form st ++ map (route_entry path) (routes (TObj tprops));
                seen := seen st |}.
Proof.
  intros Hpath hprops tprops Hall.
  induction Hall as [|[k obj] [k' child] hprops tprops [Hk Hobj] Hall IH];
    intros Hgood Hcall st Hst.
  - simpl. rewrite app_nil_r. by destruct st.
  - simpl in Hk, Hobj. subst k'.
    apply well_keyed_cons in Hgood as (_ & Hkey & Hcond & Hchild & Hrest).
    specialize (IH Hrest
      (fun kt cprops obj st Hin => Hcall kt cprops obj st
         (list_elem_of_further _ _ _ Hin))).
    rewrite routes_cons, map_app, (assoc_L (++)).
    cbn [foldM fst snd].
    destruct child as [p|items|cprops]; [|done|].
    + inversion Hobj as [p' Hp| |]; subst.
      assert (Hstep :
        match prim_value p with
        | VUndef => Ok st
        | _ => fromObject (S fuel) h (prim_value p) st
                 (Some (child_key (path_namespace path) k))
        end = Ok (append st (path_key (path ++ [k]))
                    (EText (primitive_text (prim_value p))))).
      { rewrite <- child_key_path by done. by destruct p. }
      rewrite Hstep. cbn [mbind outcome_bind].
      rewrite (IH (append st _ _)) by done. reflexivity.
    + inversion Hobj as [p Hp| |a hps ? Hlook Hcps]; subst.
      rewrite child_namespace by done.
      pose proof (Hcall (k, TObj cprops) cprops (VRef a) st
                    ltac:(left) eq_refl Hobj eq_refl) as Hchild'.
      cbn [fst snd] in Hchild'. rewrite Hchild'.
      cbn [mbind outcome_bind].
      rewrite (IH {| form := _; seen := seen st |}) by done.
      cbn [form seen]. do 4 f_equal.
      rewrite map_map. apply map_ext. intros r.
      symmetry. apply route_entry_below.
Qed.

Lemma fromObject_routes h t :
  well_keyed t = true ->
  forall props obj path st fuel,
    t = TObj props ->
    repr h obj t ->
    Forall (fun s => plain_segment s = true) path ->
    seen_above h (seen st) t ->
    size (dom h ∖ seen st) < fuel ->
    fromObject fuel h obj st (path_namespace path)
      = Ok {| form := form st ++ map (route_entry path) (routes t);
              seen := seen st |}.
Proof.
  induction t as [p|items _|props0 IH] using tree_rect'; try done.
  intros Hgood props obj path st fuel [= <-] Hobj Hpath Habove Hfuel.
  inversion Hobj as [| |a hprops ? Hlook Hprops]; subst.
  assert (Ha : a ∉ seen st).
  { intros Hin. specialize (Habove a _ Hin Hobj). lia. }
  destruct fuel as [|fuel]; [lia|]. simpl.
  rewrite bool_decide_eq_false_2, Hlook by done.
  assert (Hsmaller : size (dom h ∖ ({[a]} ∪ seen st)) < fuel).
  { assert (size (dom h ∖ ({[a]} ∪ seen st)) < size (dom h ∖ seen st)); [|lia].
    apply subset_size.
    assert (a ∈ dom h) by (apply elem_of_dom; eauto).
    set_solver. }
  destruct fuel as [|fuel]; [lia|].
  rewrite (foldM_plain_props h fuel path ({[a]} ∪ seen st) Hpath
             hprops props0 Hprops Hgood); [| |done].
  - simpl. do 2 f_equal. set_solver.
  - intros [k child] cprops obj' st' Hin Hchild Hobj' Hst'.
    cbn [fst snd] in *. subst child.
    assert (Hgood' : well_keyed (TObj cprops) = true /\ plain_segment k = true).
    { clear -Hgood Hin. induction props0 as [|[k0 c0] props0 IHp];
        [by apply elem_of_nil in Hin|].
      apply well_keyed_cons in Hgood as (_ & Hk & _ & Hc & Hrest).
      apply elem_of_cons in Hin as [[= -> ->]|Hin]; auto. }
    destruct Hgood' as [Hgood' Hk].
    apply Forall_forall with (x := (k, TObj cprops)) in IH; [|done].
    cbn [fst snd] in IH.
    apply (IH Hgood' cprops); try done.
    + apply Forall_app. split; [done|]. by apply Forall_singleton.
    + rewrite Hst'. intros b t' Hb Ht'.
      pose proof (tsize_child _ _ _ Hin) as Hlt.
      apply elem_of_union in Hb as [Hb|Hb].
      * apply elem_of_singleton in Hb as ->.
        rewrite <- (repr_functional h _ _ _ Hobj Ht'). done.
      * specialize (Habove b t' Hb Ht'). lia.
    + by rewrite Hst'.
Qed.

(** *** The round trip *)

Lemma routes_plain t :
  well_keyed t = true ->
  forall r, r ∈ routes t ->
    Forall (fun s => plain_segment s = true) (r.1.1 ++ [r.1.2]).
Proof.
  induction t as [p|items _|props IH] using tree_rect';
    try (intros _ r Hr; by apply elem_of_nil in Hr).
  induction props as [|[key child] rest IHrest]; intros Hgood r Hr;
    [by apply elem_of_nil in Hr|].
  apply well_keyed_cons in Hgood as (_ & Hkey & _ & Hchild & Hrest).
  apply Forall_cons in IH as [IHchild IH].
  rewrite routes_cons in Hr. apply elem_of_app in Hr as [Hr|Hr];
    [|by apply IHrest].
  destruct child as [p|items|cprops]; [|done|].
  - apply list_elem_of_singleton in Hr as ->. by apply Forall_singleton.
  - apply list_elem_of_fmap in Hr as (r' & -> & Hr').
    simpl. constructor; [done|]. by apply IHchild.
Qed.

Lemma toObject_routes rs :
  (forall r, r ∈ rs ->
     Forall (fun s => plain_segment s = true) (r.1.1 ++ [r.1.2])) ->
  forall target,
    foldM (fun obj '(key, value) =>
             assignNestedValue obj (key_segments key) (entry_jsval value))
          target (map (route_entry []) rs)
    = decode_routes target rs.
Proof.
  induction rs as [|[[q l] s] rs IH]; intros Hplain target; [done|].
  rewrite decode_routes_cons. cbn [map foldM route_entry fst snd app].
  pose proof (Hplain (q, l, s) ltac:(left)) as Hr. cbn [fst snd] in Hr.
  rewrite key_segments_path_key by done.
  unfold assignNestedValue. rewrite pop_snoc.
  apply Forall_app in Hr as [_ Hl]. apply Forall_inv in Hl.
  apply plain_segment_spec in Hl as (Hne & _ & _).
  apply String.eqb_neq in Hne. rewrite Hne. cbn [entry_jsval].
  destruct (walk target q l (JStr s)); simpl; try done.
  apply IH. intros r Hin. apply Hplain. by right.
Qed.

(** C1 (amended: arrays, empty objects and unsafe keys are left out).
    For a tree of nested plain objects and primitives that is
    [well_keyed] (every nested object has a property, keys are distinct,
    not empty, free of brackets and not [__proto__], the key of an object
    is not a run of digits and the key of a primitive is no
    [Object.prototype] method), a top-level encode returns, and decoding
    what it returns gives the same structure with every leaf as the string
    form of the primitive. *)
Theorem C1_round_trip_of_nested_objects h obj props :
  repr h obj (TObj props) ->
  well_keyed (TObj props) = true ->
  exists fd,
    encode h obj = Ok fd /\
    (forall fuel, size h < fuel ->
       fromObject fuel h obj fresh None = Ok {| form := fd; seen := ∅ |}) /\
    toObject fd = Ok (stringify (TObj props)).
Proof.
  intros Hrepr Hgood.
  assert (Henc : forall fuel, size h < fuel ->
    fromObject fuel h obj fresh None
      = Ok {| form := map (route_entry []) (routes (TObj props));
              seen := ∅ |}).
  { intros fuel Hfuel.
    apply (fromObject_routes h (TObj props) Hgood props obj [] fresh fuel
             eq_refl Hrepr).
    - constructor.
    - intros b t' Hb. by apply not_elem_of_empty in Hb.
    - unfold fresh. cbn [seen]. by rewrite difference_empty_L, size_dom. }
  exists (map (route_entry []) (routes (TObj props))).
  split; [|split; [done|]].
  - unfold encode. by rewrite Henc by lia.
  - unfold toObject.
    rewrite toObject_routes by (by apply routes_plain).
    by rewrite (decode_routes_tree (TObj props) Hgood props []).
Qed.

Lemma C1_round_trip_of_nested_objects_witness :
  exists fd,
    encode
      (list_to_map
         [ (0, OPlain [("user", VRef 1)]);
           (1, OPlain [("name", VStr "Alice"); ("age", VNum "30")]) ])
      (VRef 0) = Ok fd /\
    (forall fuel,
       size (list_to_map
               [ (0, OPlain [("user", VRef 1)]);
                 (1, OPlain [("name", VStr "Alice"); ("age", VNum "30")]) ]
             : gmap loc object) < fuel ->
       fromObject fuel
         (list_to_map
            [ (0, OPlain [("user", VRef 1)]);
              (1, OPlain [("name", VStr "Alice"); ("age", VNum "30")]) ])
         (VRef 0) fresh None
         = Ok {| form := fd; seen := ∅ |}) /\
    toObject fd =
      Ok (stringify
            (TObj [("user", TObj [("name", TPrim (PStr "Alice"));
                                  ("age", TPrim (PNum "30"))])])).
Proof.
  apply (C1_round_trip_of_nested_objects
           (list_to_map
              [ (0, OPlain [("user", VRef 1)]);
                (1, OPlain [("name", VStr "Alice"); ("age", VNum "30")]) ])
           (VRef 0)
           [("user", TObj [("name", TPrim (PStr "Alice"));
                           ("age", TPrim (PNum "30"))])]).
  - apply (repr_obj _ 0 [("user", VRef 1)]); [reflexivity|].
    constructor; [|constructor]. split; [reflexivity|].
    apply (repr_obj _ 1 [("name", VStr "Alice"); ("age", VNum "30")]);
      [reflexivity|].
    constructor; [split; [reflexivity|apply (repr_prim _ (PStr "Alice"))]|].
    constructor; [split; [reflexivity|apply (repr_prim _ (PNum "30"))]|].
    constructor.
  - reflexivity.
Defined.

(** Two trees that do not come back.  An object without properties
    emits no entry, so [{ a: {} }] decodes to [{}].  An array does not come
    back as an array: the key [a[0]] that the encoder emits for
    [{ a: ["x"] }] makes the decoder create a mapping at [a] (the test of
    line 21 looks at [a], not at the key [0] that follows) and store "x"
    under its key "0". *)
Lemma C1_structure_not_reproduced :
  (repr {[ 0 := OPlain [("a", VRef 1)]; 1 := OPlain [] ]}
        (VRef 0) (TObj [("a", TObj [])]) /\
   encode {[ 0 := OPlain [("a", VRef 1)]; 1 := OPlain [] ]} (VRef 0) = Ok [] /\
   toObject [] = Ok (JObj []) /\
   stringify (TObj [("a", TObj [])]) = JObj [("a", JObj [])] /\
   toObject [] <> Ok (stringify (TObj [("a", TObj [])]))) /\
  (repr (list_to_map [ (0, OPlain [("a", VRef 1)]); (1, OArray [VStr "x"]) ])
        (VRef 0) (TObj [("a", TArr [TPrim (PStr "x")])]) /\
   encode (list_to_map [ (0, OPlain [("a", VRef 1)]); (1, OArray [VStr "x"]) ])
          (VRef 0) = Ok [("a[0]", EText "x")] /\
   toObject [("a[0]", EText "x")]
     = Ok (JObj [("a", JObj [("0", JStr "x")])]) /\
   stringify (TObj [("a", TArr [TPrim (PStr "x")])])
     = JObj [("a", JArr [JStr "x"] [])] /\
   toObject [("a[0]", EText "x")]
     <> Ok (stringify (TObj [("a", TArr [TPrim (PStr "x")])]))).
Proof.
  split.
  - split; [|repeat split; discriminate].
    apply (repr_obj _ 0 [("a", VRef 1)]); [reflexivity|].
    constructor; [|constructor]. split; [reflexivity|].
    apply (repr_obj _ 1 []); [reflexivity|constructor].
  - split; [|repeat split; discriminate].
    apply (repr_obj _ 0 [("a", VRef 1)]); [reflexivity|].
    constructor; [|constructor]. split; [reflexivity|].
    apply (repr_arr _ 1 [VStr "x"]); [reflexivity|].
    constructor; [apply (repr_prim _ (PStr "x"))|constructor].
Qed.

(** Other shapes that the flat form does not carry: an object under a
    key of digits comes back as an array with a stray property, a
    primitive at top level is filed under the key "undefined", and a
    primitive under the name of an inherited method is coalesced with the
    method. *)
Example round_trip_limits :
  encode (list_to_map [ (0, OPlain [("7", VRef 1)]);
                        (1, OPlain [("b", VStr "x")]) ]) (VRef 0)
    = Ok [("7[b]", EText "x")] /\
  toObject [("7[b]", EText "x")]
    = Ok (JObj [("7", JArr [] [("NaN", JStr "x")])]) /\
  toObject [("undefined", EText "s")] = Ok (JObj [("undefined", JStr "s")]) /\
  toObject [("toString", EText "s")]
    = Ok (JObj [("toString", JArr [JFun "toString"; JStr "s"] [])]).
Proof. repeat split. Qed.

(** * Further properties of the codec *)

(** ** The splitter of keys *)

Lemma join_filter_nonempty segments :
  join (filter (fun k : string => k <> "") segments) = join segments.
Proof.
  induction segments as [|s segments IH]; [done|].
  destruct (decide (s = "")) as [->|Hs].
  - by rewrite filter_cons_False by (intros H; by apply H).
  - rewrite filter_cons_True by done. simpl. by rewrite IH.
Qed.

Lemma split_brackets_spec s :
  Forall (fun seg => string_existsb is_bracket seg = false) (split_brackets s)
  /\ join (split_brackets s) = strip_brackets s.
Proof.
  induction s as [|c s [IHfree IHjoin]]; [by repeat constructor|].
  simpl. destruct (is_bracket c) eqn:Hc.
  - destruct s as [|c' s].
    + by repeat constructor.
    + destruct (is_bracket c') eqn:Hc'; [done|].
      split; [by constructor|]. by rewrite <- IHjoin.
  - destruct (split_brackets_cons s) as (seg & segs & Hsplit).
    rewrite Hsplit in *. apply Forall_cons in IHfree as [Hseg Hsegs].
    split.
    + constructor; [|done]. simpl. by rewrite Hc, Hseg.
    + simpl in *. by rewrite append_cons, IHjoin.
Qed.

Lemma strip_brackets_plain s :
  string_existsb is_bracket s = false -> strip_brackets s = s.
Proof.
  induction s as [|c s IH]; [done|]. simpl. intros H.
  apply orb_false_iff in H as [-> H]. by rewrite IH.
Qed.

Lemma strip_brackets_only s :
  string_forallb is_bracket s = true -> strip_brackets s = "".
Proof.
  induction s as [|c s IH]; [done|]. simpl. intros H.
  apply andb_true_iff in H as [-> H]. auto.
Qed.

Lemma join_nonempty_nil segments :
  Forall (fun k : string => k <> "") segments ->
  join segments = "" -> segments = [].
Proof.
  intros Hall. destruct Hall as [|s rest Hs _]; [done|]. simpl.
  destruct s; [done|]. by rewrite append_cons.
Qed.

Lemma key_segments_only_brackets key :
  string_forallb is_bracket key = true -> key_segments key = [].
Proof.
  intros Hkey. apply join_nonempty_nil.
  - apply list.Forall_forall. intros k Hk. intros ->.
    by apply key_segments_nonempty in Hk.
  - unfold key_segments. rewrite join_filter_nonempty.
    rewrite (proj2 (split_brackets_spec key)). by apply strip_brackets_only.
Qed.

Lemma key_segments_plain key :
  string_existsb is_bracket key = false -> key <> "" ->
  key_segments key = [key].
Proof.
  intros Hplain Hne.
  pose proof (split_brackets_prefix key "" "" [] Hplain eq_refl) as Hsplit.
  rewrite !append_nil_r in Hsplit.
  unfold key_segments. rewrite Hsplit.
  by rewrite filter_cons_True, filter_nil.
Qed.

(** X1.  The segments of a key are not empty and hold no bracket; written
    one after the other they are the key without its brackets; and a key
    without brackets, unless empty, is its own single segment. *)
Theorem key_segments_characterised key :
  Forall (fun seg => seg <> "" /\ string_existsb is_bracket seg = false)
         (key_segments key) /\
  join (key_segments key) = strip_brackets key /\
  (string_existsb is_bracket key = false -> key <> "" ->
   key_segments key = [key]).
Proof.
  destruct (split_brackets_spec key) as [Hfree Hjoin].
  split; [|split].
  - apply list.Forall_forall. intros seg Hseg. unfold key_segments in Hseg.
    apply list_elem_of_filter in Hseg as [Hne Hin]. split; [done|].
    by apply (proj1 (list.Forall_forall _ _) Hfree).
  - unfold key_segments. by rewrite join_filter_nonempty.
  - apply key_segments_plain.
Qed.

Lemma key_segments_characterised_witness :
  key_segments "name" = ["name"].
Proof.
  by apply (proj2 (proj2 (key_segments_characterised "name"))).
Defined.

(** X2.  A pair whose key consists of bracket characters only (the empty
    key, [[]], [][]) is ignored: the tree is what it is without the
    pair. *)
Theorem bracket_only_keys_are_ignored key before after value :
  string_forallb is_bracket key = true ->
  toObject (before ++ (key, value) :: after) = toObject (before ++ after).
Proof.
  intros Hkey. unfold toObject. rewrite !foldM_app. simpl.
  rewrite (key_segments_only_brackets key Hkey). f_equal.
Qed.

Lemma bracket_only_keys_are_ignored_witness :
  toObject ([("a", EText "x")] ++ ("[][]", EText "y") :: [("b", EText "z")])
  = toObject ([("a", EText "x")] ++ [("b", EText "z")]).
Proof.
  apply (bracket_only_keys_are_ignored "[][]" [("a", EText "x")]
           [("b", EText "z")] (EText "y")).
  reflexivity.
Defined.

(** ** The shape of the decoded tree *)

Lemma assignNestedValue_kind target keys value result k :
  kind target = Some k ->
  assignNestedValue target keys value = Ok result ->
  kind result = Some k.
Proof.
  intros Hk. unfold assignNestedValue.
  destruct (pop keys) as [[keys' lastKey]|]; [|by intros [= <-]].
  destruct (String.eqb lastKey ""); [by intros [= <-]|].
  eauto using walk_kind.
Qed.

Lemma decode_from_mapping fd : forall props result,
  foldM (fun obj '(key, value) =>
           assignNestedValue obj (key_segments key) (entry_jsval value))
        (JObj props) fd = Ok result ->
  exists props', result = JObj props'.
Proof.
  induction fd as [|[key value] fd IH]; intros props result; simpl.
  - intros [= <-]. eauto.
  - intros H. inv_bind H.
    apply (assignNestedValue_kind _ _ _ _ Mapping) in Ha as Hkind; [|done].
    destruct a; try done. eauto.
Qed.

(** X3.  Whatever the pairs, a decode that returns gives a mapping: no key
    turns the root into a sequence or replaces it by a value. *)
Theorem toObject_returns_a_mapping fd result :
  toObject fd = Ok result -> exists props, result = JObj props.
Proof. apply decode_from_mapping. Qed.

Lemma toObject_returns_a_mapping_witness :
  exists props,
    JObj [("0", JArr [] [("NaN", JStr "v")])] = JObj props.
Proof.
  apply (toObject_returns_a_mapping [("0[x]", EText "v")]). reflexivity.
Defined.

(** ** Decoding flat forms *)

Lemma assign_single (target : jsval) key value :
  string_existsb is_bracket key = false -> key <> "" ->
  assignNestedValue target (key_segments key) value = walk target [] key value.
Proof.
  intros Hplain Hne.
  rewrite (key_segments_plain key Hplain Hne).
  unfold assignNestedValue. simpl.
  apply String.eqb_neq in Hne. by rewrite Hne.
Qed.

Lemma decode_flat fd : forall acc,
  NoDup (acc.*1 ++ fd.*1) ->
  Forall (fun kv => plain_segment kv.1 = true /\
                    kv.1 ∉ object_prototype_names) fd ->
  foldM (fun obj '(key, value) =>
           assignNestedValue obj (key_segments key) (entry_jsval value))
        (JObj acc) fd
  = Ok (JObj (acc ++ map (fun kv => (kv.1, entry_jsval kv.2)) fd)).
Proof.
  induction fd as [|[key value] fd IH]; intros acc Hnodup Hall; simpl.
  - by rewrite app_nil_r.
  - apply Forall_cons in Hall as [[Hkey Hnames] Hall]. simpl in Hkey, Hnames.
    pose proof (plain_segment_spec key Hkey) as (Hne & Hplain & _).
    rewrite assign_single, walk_leaf; try done.
    + simpl. rewrite IH; [by rewrite <- (assoc_L (++))| |done].
      rewrite fmap_app. simpl. by rewrite <- (assoc_L (++)).
    + apply NoDup_app in Hnodup as (_ & Hdisj & _).
      destruct (own_get acc key) as [v|] eqn:Hown; [|done].
      exfalso. apply (Hdisj key); [|left].
      clear -Hown. induction acc as [|[k w] acc IHacc]; [done|].
      simpl in *. destruct (String.eqb k key) eqn:E.
      * apply String.eqb_eq in E as ->. left.
      * right. auto.
Qed.

Lemma insert_index_perm key sorted : insert_index key sorted ≡ₚ key :: sorted.
Proof.
  induction sorted as [|k sorted IH]; [done|]. simpl.
  destruct (index_of key <=? index_of k); [done|].
  rewrite IH. apply Permutation_swap.
Qed.

Lemma sort_index_perm keys : foldr insert_index [] keys ≡ₚ keys.
Proof.
  induction keys as [|k keys IH]; [done|]. simpl.
  by rewrite insert_index_perm, IH.
Qed.

Lemma insert_index_sorted key sorted :
  StronglySorted (fun k1 k2 => index_of k1 <= index_of k2) sorted ->
  StronglySorted (fun k1 k2 => index_of k1 <= index_of k2)
                 (insert_index key sorted).
Proof.
  induction 1 as [|k sorted Hsorted IH Hall]; simpl.
  - repeat constructor.
  - destruct (index_of key <=? index_of k) eqn:Hle.
    + apply Nat.leb_le in Hle. constructor; [by constructor|].
      constructor; [done|]. eapply Forall_impl; [exact Hall|].
      intros k2 Hk2. simpl in *. lia.
    + apply Nat.leb_gt in Hle. constructor; [done|].
      rewrite insert_index_perm. constructor; [lia|done].
Qed.

Lemma sort_index_sorted keys :
  StronglySorted (fun k1 k2 => index_of k1 <= index_of k2)
                 (foldr insert_index [] keys).
Proof.
  induction keys as [|k keys IH]; simpl; [constructor|].
  by apply insert_index_sorted.
Qed.

Lemma index_of_inj key1 key2 :
  is_index key1 = true -> is_index key2 = true ->
  index_of key1 = index_of key2 -> key1 = key2.
Proof.
  unfold is_index, index_of. intros H1 H2.
  apply bool_decide_eq_true_1 in H1 as [i Hi], H2 as [j Hj].
  rewrite Hi, Hj. simpl. intros ->. eauto using array_index_inj.
Qed.

Lemma sorted_strictly keys :
  NoDup keys ->
  Forall (fun k => is_index k = true) keys ->
  StronglySorted (fun k1 k2 => index_of k1 <= index_of k2) keys ->
  StronglySorted (fun k1 k2 => index_of k1 < index_of k2) keys.
Proof.
  intros Hnodup Hindex Hsorted.
  induction Hsorted as [|k keys Hsorted IH Hall]; [constructor|].
  apply NoDup_cons in Hnodup as [Hk Hnodup].
  apply Forall_cons in Hindex as [Hki Hindex].
  constructor; [by apply IH|].
  apply list.Forall_forall. intros k2 Hk2.
  pose proof (proj1 (list.Forall_forall _ _) Hall k2 Hk2) as Hle.
  pose proof (proj1 (list.Forall_forall _ _) Hindex k2 Hk2) as Hk2i.
  simpl in Hle.
  assert (index_of k <> index_of k2); [|lia].
  intros Heq. apply Hk. by rewrite (index_of_inj k k2).
Qed.

(** The enumeration of distinct keys: the array indices in strictly
    ascending order, then the other keys as they were created. *)
Lemma key_order_spec keys :
  NoDup keys ->
  exists indices,
    key_order keys = indices ++ filter (fun k => is_index k = false) keys /\
    indices ≡ₚ filter (fun k => is_index k = true) keys /\
    StronglySorted (fun k1 k2 => index_of k1 < index_of k2) indices.
Proof.
  intros Hnodup.
  exists (foldr insert_index [] (filter (fun k => is_index k = true) keys)).
  split; [done|]. split; [apply sort_index_perm|].
  apply sorted_strictly.
  - rewrite sort_index_perm. by apply NoDup_filter.
  - rewrite sort_index_perm. apply list.Forall_forall. intros k Hk.
    by apply list_elem_of_filter in Hk as [? _].
  - apply sort_index_sorted.
Qed.

(** X4.  A form whose keys are distinct, without brackets, not empty,
    not [__proto__] and no name that a plain object inherits decodes to
    the mapping that holds exactly its pairs, a text as that text and a
    binary entry as that entry.  The properties are created in the order
    of the pairs, so the keys are enumerated with the array indices first,
    in ascending order, and the other keys after them, in the order of the
    pairs. *)
Theorem toObject_flat_form fd :
  NoDup fd.*1 ->
  Forall (fun kv => plain_segment kv.1 = true /\
                    kv.1 ∉ object_prototype_names) fd ->
  exists props,
    toObject fd = Ok (JObj props) /\
    props = map (fun kv => (kv.1, entry_jsval kv.2)) fd /\
    exists indices,
      own_keys props
        = indices ++ filter (fun k => is_index k = false) fd.*1 /\
      indices ≡ₚ filter (fun k => is_index k = true) fd.*1 /\
      StronglySorted (fun k1 k2 => index_of k1 < index_of k2) indices.
Proof.
  intros Hnodup Hall.
  exists (map (fun kv => (kv.1, entry_jsval kv.2)) fd).
  split; [by apply (decode_flat fd [])|].
  split; [done|]. unfold own_keys.
  replace ((map (fun kv => (kv.1, entry_jsval kv.2)) fd).*1) with fd.*1.
  - by apply key_order_spec.
  - clear. induction fd as [|[k v] fd IH]; [done|]. simpl. by f_equal.
Qed.

Lemma toObject_flat_form_witness :
  exists props,
    toObject [("name", EText "Ann"); ("7", EBlob 3); ("2", EText "b")]
      = Ok (JObj props) /\
    props = map (fun kv => (kv.1, entry_jsval kv.2))
                [("name", EText "Ann"); ("7", EBlob 3); ("2", EText "b")] /\
    exists indices,
      own_keys props
        = indices ++ filter (fun k => is_index k = false)
                            [("name", EText "Ann"); ("7", EBlob 3);
                             ("2", EText "b")].*1 /\
      indices ≡ₚ filter (fun k => is_index k = true)
                        [("name", EText "Ann"); ("7", EBlob 3);
                         ("2", EText "b")].*1 /\
      StronglySorted (fun k1 k2 => index_of k1 < index_of k2) indices.
Proof.
  apply (toObject_flat_form
           [("name", EText "Ann"); ("7", EBlob 3); ("2", EText "b")]).
  - by apply (bool_decide_unpack _).
  - repeat constructor; by apply (bool_decide_unpack _).
Defined.

(** The form of the witness, evaluated: the keys come out as [2], [7],
    [name]. *)
Example flat_form_enumeration :
  toObject [("name", EText "Ann"); ("7", EBlob 3); ("2", EText "b")]
    = Ok (JObj [("name", JStr "Ann"); ("7", JFile 3); ("2", JStr "b")]) /\
  own_keys [("name", JStr "Ann"); ("7", JFile 3); ("2", JStr "b")]
    = ["2"; "7"; "name"].
Proof. split; reflexivity. Qed.

(** ** A key that occurs several times *)

Lemma entry_jsval_scalar e :
  is_undefined (entry_jsval e) = false /\ isArray (entry_jsval e) = false.
Proof. by destruct e. Qed.

Lemma place_appends key elems v :
  key <> "" ->
  (N.of_nat (length elems) < 4294967295)%N ->
  walk (JObj [(key, JArr elems [])]) [] key v
  = Ok (JObj [(key, JArr (elems ++ [v]) [])]).
Proof.
  intros Hne Hlen. apply String.eqb_neq in Hne. apply N.ltb_lt in Hlen.
  cbn [walk]. unfold place. rewrite Hne.
  cbn [isArray negb get own_get]. rewrite String.eqb_refl.
  cbn [mbind outcome_bind is_undefined negb isArray].
  rewrite push_builtin by done. rewrite Hlen.
  cbn [mbind outcome_bind store own_set]. by rewrite String.eqb_refl.
Qed.

Lemma push_repeated key values : forall elems,
  key <> "" ->
  string_existsb is_bracket key = false ->
  (N.of_nat (length elems + length values) <= 4294967295)%N ->
  foldM (fun obj '(k, value) =>
           assignNestedValue obj (key_segments k) (entry_jsval value))
        (JObj [(key, JArr elems [])]) (map (fun v => (key, v)) values)
  = Ok (JObj [(key, JArr (elems ++ map entry_jsval values) [])]).
Proof.
  induction values as [|v values IH]; intros elems Hne Hplain Hlen.
  - simpl. by rewrite app_nil_r.
  - cbn [map foldM length] in *.
    rewrite assign_single, place_appends by (done || lia).
    cbn [mbind outcome_bind]. rewrite IH; try done.
    + by rewrite <- (assoc_L (++)).
    + rewrite length_app. simpl. lia.
Qed.

(** X5.  A key without brackets that the form holds two or more times (and
    that is neither inherited nor [__proto__]) decodes to the sequence of
    all its values in the order of the pairs. *)
Theorem toObject_repeated_key key v1 v2 values :
  plain_segment key = true ->
  key ∉ object_prototype_names ->
  (N.of_nat (2 + length values) <= 4294967295)%N ->
  toObject (map (fun v => (key, v)) (v1 :: v2 :: values))
  = Ok (JObj [(key, JArr (map entry_jsval (v1 :: v2 :: values)) [])]).
Proof.
  intros Hkey Hnames Hlen.
  pose proof (plain_segment_spec key Hkey) as (Hne & Hplain & Hproto).
  unfold toObject. cbn [map foldM].
  rewrite assign_single, walk_leaf by done. cbn [mbind outcome_bind app].
  rewrite assign_single by done. cbn [walk]. unfold place.
  pose proof Hne as Hne'. apply String.eqb_neq in Hne'. rewrite Hne'.
  cbn [isArray negb get own_get]. rewrite String.eqb_refl.
  cbn [mbind outcome_bind].
  destruct (entry_jsval_scalar v1) as [-> ->]. cbn [negb set own_get].
  rewrite String.eqb_refl. cbn [store own_set]. rewrite String.eqb_refl.
  cbn [mbind outcome_bind].
  apply (push_repeated key values [entry_jsval v1; entry_jsval v2]);
    done.
Qed.

Lemma toObject_repeated_key_witness :
  toObject (map (fun v => ("tag", v)) [EText "a"; EText "b"; EBlob 1])
  = Ok (JObj [("tag", JArr (map entry_jsval [EText "a"; EText "b"; EBlob 1])
                         [])]).
Proof.
  apply (toObject_repeated_key "tag" (EText "a") (EText "b") [EBlob 1]).
  - reflexivity.
  - by apply (bool_decide_unpack _).
  - vm_compute. discriminate.
Defined.

(** ** What one pair changes *)

Lemma get_store_other props key other v :
  key <> other ->
  get (store (JObj props) key v) other = get (JObj props) other.
Proof. intros Hne. by apply get_store_ne. Qed.

Lemma place_frame_mapping props lastKey value result other :
  lastKey <> other ->
  place (JObj props) lastKey value = Ok result ->
  get result other = get (JObj props) other.
Proof.
  intros Hne Hplace.
  destruct (decide (lastKey = "")) as [->|Hempty].
  - unfold place in Hplace. simpl in Hplace. by injection Hplace as <-.
  - eapply place_frame; eauto.
    unfold placed_key. cbn [isArray]. congruence.
Qed.

Lemma walk_frame props key keys lastKey value result other :
  key <> other ->
  walk (JObj props) (key :: keys) lastKey value = Ok result ->
  get result other = get (JObj props) other.
Proof.
  intros Hne H. cbn [walk] in H.
  inv_bind H. inv_bind H. inv_bind H. inv_bind H. injection H as <-.
  destruct a.
  - apply set_Ok in Ha0 as (-> & _ & _). cbn [store get].
    by rewrite !own_get_own_set_ne.
  - injection Ha0 as <-. by apply get_store_other.
Qed.

Lemma pop_cons key rest init lastKey :
  pop (key :: rest) = Some (init, lastKey) ->
  (rest = [] /\ init = [] /\ lastKey = key) \/
  (exists init', init = key :: init').
Proof.
  simpl. destruct rest as [|k rest]; [intros [= <- <-]; by left|].
  destruct (pop (k :: rest)) as [[i l]|]; [|done].
  intros [= <- <-]. right. eauto.
Qed.

Lemma assignNestedValue_frame props first rest value result other :
  first <> other ->
  assignNestedValue (JObj props) (first :: rest) value = Ok result ->
  get result other = get (JObj props) other.
Proof.
  intros Hne. unfold assignNestedValue.
  destruct (pop (first :: rest)) as [[init lastKey]|] eqn:Hpop;
    [|by intros [= <-]].
  destruct (String.eqb lastKey ""); [by intros [= <-]|].
  apply pop_cons in Hpop as [(-> & -> & ->)|[init' ->]].
  - by apply place_frame_mapping.
  - by apply walk_frame.
Qed.

(** X6.  A pair none of whose key segments is [__proto__], and whose
    decode returns, changes the top-level property named by the first
    segment of its key and no other: every other name reads after the pair
    what it read before.  (Through [__proto__] a key reaches
    [Object.prototype], which every object reads from; the embedding
    returns nothing for such a key.) *)
Theorem pair_touches_one_property fd key value before after first rest other :
  toObject fd = Ok before ->
  toObject (fd ++ [(key, value)]) = Ok after ->
  "__proto__" ∉ key_segments key ->
  key_segments key = first :: rest ->
  other <> first ->
  get after other = get before other.
Proof.
  intros Hbefore Hafter _ Hsegs Hne. unfold toObject in *.
  rewrite foldM_app, Hbefore in Hafter. cbn [mbind outcome_bind foldM] in Hafter.
  inv_bind Hafter. injection Hafter as <-.
  apply decode_from_mapping in Hbefore as [props ->].
  rewrite Hsegs in Ha. eapply assignNestedValue_frame; [|done]. by intros ->.
Qed.

Lemma pair_touches_one_property_witness :
  get (JObj [("a", JStr "x"); ("b", JObj [("c", JStr "y")])]) "a"
  = get (JObj [("a", JStr "x")]) "a".
Proof.
  apply (pair_touches_one_property [("a", EText "x")] "b[c]" (EText "y")
           (JObj [("a", JStr "x")])
           (JObj [("a", JStr "x"); ("b", JObj [("c", JStr "y")])])
           "b" ["c"] "a");
    [reflexivity | reflexivity | by apply (bool_decide_unpack _)
    | reflexivity | discriminate].
Defined.

(** What the embedding returns for a key that reaches [__proto__]. *)
Example proto_keys_are_beyond :
  toObject [("__proto__[polluted]", EText "1")] = Beyond /\
  toObject [("a[__proto__][x]", EText "1")] = Beyond /\
  toObject [("__proto__", EText "1")] = Beyond.
Proof. repeat split. Qed.

(** ** Forms that cannot make the decoder raise *)

Lemma arrays_within_own_set bound props key v :
  arrays_within bound props ->
  match v with
  | JArr elems xs => length elems <= bound /\ xs = []
  | _ => True
  end ->
  arrays_within bound (own_set props key v).
Proof.
  intros Hall Hv. induction Hall as [|[k w] props Hw Hall IH]; simpl.
  - by repeat constructor.
  - destruct (String.eqb k key); constructor; auto.
Qed.

Lemma arrays_within_own_get bound props key elems xs :
  arrays_within bound props ->
  own_get props key = Some (JArr elems xs) ->
  length elems <= bound /\ xs = [].
Proof.
  intros Hall. induction Hall as [|[k w] props Hw Hall IH]; simpl; [done|].
  destruct (String.eqb k key); [|done]. intros [= ->]. done.
Qed.

Lemma arrays_within_mono bound bound' props :
  bound <= bound' -> arrays_within bound props -> arrays_within bound' props.
Proof.
  intros Hle Hall. eapply Forall_impl; [exact Hall|].
  intros [k v]. simpl. destruct v; auto. intros [? ?]. split; [lia|done].
Qed.

(** One pair with a key without brackets, on a mapping whose arrays are
    short enough to grow and have no property that hides [push]. *)
Lemma place_flat_returns bound props key value :
  key <> "__proto__" ->
  1 <= bound ->
  (N.of_nat bound < 4294967295)%N ->
  arrays_within bound props ->
  exists props',
    place (JObj props) key (entry_jsval value) = Ok (JObj props') /\
    arrays_within (S bound) props'.
Proof.
  intros Hproto Hone Hbound Hall. apply String.eqb_neq in Hproto.
  assert (Hwider : arrays_within (S bound) props)
    by (eapply arrays_within_mono; [|done]; lia).
  unfold place. destruct (String.eqb key "") eqn:Hempty; [by eauto|].
  cbn [isArray get].
  destruct (own_get props key) as [old|] eqn:Hown.
  - cbn [mbind outcome_bind].
    destruct old as [| | | | | |elems xs];
      cbn [is_undefined negb isArray set]; rewrite ?Hown;
      try (eexists; split; [reflexivity|];
           apply arrays_within_own_set; [done|];
           first [by destruct value | simpl; split; [lia|done]]).
    destruct (arrays_within_own_get _ _ _ _ _ Hall Hown) as [Hlen ->].
    rewrite push_builtin by done.
    assert ((N.of_nat (length elems) <? 4294967295)%N = true) as ->
      by (apply N.ltb_lt; lia).
    eexists. split; [reflexivity|].
    apply arrays_within_own_set; [done|]. rewrite length_app. simpl.
    split; [lia|done].
  - unfold inherited. rewrite Hproto.
    case_bool_decide; cbn [mbind outcome_bind is_undefined negb isArray set];
      rewrite Hown, Hproto;
      (eexists; split; [reflexivity|];
       apply arrays_within_own_set; [done|];
           first [by destruct value | simpl; split; [lia|done]]).
Qed.

Lemma decode_flat_returns fd : forall bound props,
  Forall (fun kv => string_existsb is_bracket kv.1 = false /\
                    kv.1 <> "__proto__") fd ->
  1 <= bound ->
  (N.of_nat (bound + length fd) <= 4294967295)%N ->
  arrays_within bound props ->
  exists props',
    foldM (fun obj '(key, value) =>
             assignNestedValue obj (key_segments key) (entry_jsval value))
          (JObj props) fd = Ok (JObj props').
Proof.
  induction fd as [|[key value] fd IH]; intros bound props Hall Hone Hlen Hin.
  - simpl. eauto.
  - apply Forall_cons in Hall as [[Hplain Hproto] Hall].
    cbn [fst] in Hplain, Hproto. cbn [foldM length] in *.
    destruct (decide (key = "")) as [->|Hne].
    + cbn [mbind outcome_bind].
      change (assignNestedValue (JObj props) (key_segments "")
                (entry_jsval value)) with (Ok (JObj props) : outcome jsval).
      cbn [mbind outcome_bind].
      apply (IH bound); try done. lia.
    + rewrite assign_single by done. cbn [walk].
      destruct (place_flat_returns bound props key value)
        as (props' & -> & Hin'); try done; [lia|].
      cbn [mbind outcome_bind]. apply (IH (S bound)); try done; lia.
Qed.

(** X7.  A form none of whose keys holds a bracket or is [__proto__] never
    makes the decoder raise, whatever its values and however its keys
    repeat: the decode returns a mapping (for any form that an array can
    index, fewer than 2^32 - 1 pairs). *)
Theorem toObject_flat_keys_return fd :
  Forall (fun kv => string_existsb is_bracket kv.1 = false /\
                    kv.1 <> "__proto__") fd ->
  (N.of_nat (length fd) < 4294967295)%N ->
  exists props, toObject fd = Ok (JObj props).
Proof.
  intros Hall Hlen. apply (decode_flat_returns fd 1 []); try done.
  - lia.
  - constructor.
Qed.

Lemma toObject_flat_keys_return_witness :
  exists props,
    toObject [("length", EText "1"); ("toString", EBlob 2);
              ("length", EText "3"); ("", EText "4")] = Ok (JObj props).
Proof.
  apply (toObject_flat_keys_return
           [("length", EText "1"); ("toString", EBlob 2);
            ("length", EText "3"); ("", EText "4")]).
  - repeat constructor; discriminate.
  - vm_compute. reflexivity.
Defined.

(** ** Placement in a sequence *)

(** X8.  On a sequence, a final segment of digits places the value at the
    index it denotes (leading zeros do not count): the element there is
    the value, the elements before the old end stay, the sequence grows to
    reach the index, and what lies between the old end and the index
    reads as undefined. *)
Theorem place_at_index elems props lastKey value :
  all_digits lastKey = true ->
  (digits_value 0 lastKey < 4294967295)%N ->
  exists elems',
    place (JArr elems props) lastKey value = Ok (JArr elems' props) /\
    length elems'
      = Nat.max (length elems) (S (N.to_nat (digits_value 0 lastKey))) /\
    elems' !! N.to_nat (digits_value 0 lastKey) = Some value /\
    (forall j, j <> N.to_nat (digits_value 0 lastKey) ->
       j < length elems -> elems' !! j = elems !! j) /\
    (forall j, length elems <= j < N.to_nat (digits_value 0 lastKey) ->
       elems' !! j = Some JUndef).
Proof.
  intros Hall Hsmall. set (n := digits_value 0 lastKey) in *.
  exists (write_index elems (N.to_nat n) value). split; [|split; [|split; [|split]]].
  - unfold place.
    assert (String.eqb lastKey "" = false) as ->
      by (apply String.eqb_neq; by intros ->).
    cbn [isArray]. rewrite parseInt10_digits by (done || fold n; lia).
    cbn [mbind outcome_bind number_key]. fold n. rewrite pretty_Z_of_N.
    pose proof (array_index_pretty n Hsmall) as Hindex.
    destruct (pretty_N_digits n) as [Hdigits _].
    unfold set. 
    assert (String.eqb (pretty n) "length" = false) as ->.
    { apply String.eqb_neq. intros Heq. by rewrite Heq in Hdigits. }
    rewrite Hindex. cbn [store]. by rewrite Hindex.
  - unfold write_index. case_decide.
    + rewrite length_insert. lia.
    + rewrite !length_app, length_replicate. simpl. lia.
  - apply write_index_lookup.
  - intros j Hj Hlt. unfold write_index. case_decide.
    + by rewrite list_lookup_insert_ne.
    + by rewrite lookup_app_l.
  - intros j [Hlo Hhi]. unfold write_index.
    rewrite decide_False by lia.
    rewrite lookup_app_r by lia. rewrite lookup_app_l
      by (rewrite length_replicate; lia).
    apply lookup_replicate_2. lia.
Qed.

Lemma place_at_index_witness :
  exists elems',
    place (JArr [JStr "a"] []) "003" (JStr "d") = Ok (JArr elems' []) /\
    length elems' = Nat.max 1 (S (N.to_nat (digits_value 0 "003"))) /\
    elems' !! N.to_nat (digits_value 0 "003") = Some (JStr "d") /\
    (forall j, j <> N.to_nat (digits_value 0 "003") ->
       j < 1 -> elems' !! j = [JStr "a"] !! j) /\
    (forall j, 1 <= j < N.to_nat (digits_value 0 "003") ->
       elems' !! j = Some JUndef).
Proof.
  apply (place_at_index [JStr "a"] [] "003" (JStr "d")).
  - reflexivity.
  - reflexivity.
Defined.

(** X9.  On a sequence, a final segment that starts with a letter (any
    ASCII character but white space, a sign or a digit) is no index: the
    value lands in the property [NaN] and the elements stay as they are,
    so a second such pair replaces what the first one stored. *)
Theorem place_without_number elems props lastKey value :
  starts_without_number lastKey = true ->
  place (JArr elems props) lastKey value
    = Ok (JArr elems (own_set props "NaN" value)) /\
  (forall lastKey' value',
     starts_without_number lastKey' = true ->
     place (JArr elems (own_set props "NaN" value)) lastKey' value'
     = Ok (JArr elems (own_set props "NaN" value'))).
Proof.
  assert (Hone : forall ps key v,
            starts_without_number key = true ->
            place (JArr elems ps) key v = Ok (JArr elems (own_set ps "NaN" v))).
  { intros ps key v Hkey. destruct key as [|c key]; [done|].
    unfold starts_without_number in Hkey.
    repeat (apply andb_true_iff in Hkey as [Hkey ?]).
    repeat match goal with H : negb _ = true |- _ =>
      apply negb_true_iff in H end.
    unfold place, parseInt10. cbn [String.eqb isArray skip_spaces].
    replace (is_ascii_space c) with false by done.
    replace (128 <=? nat_of_ascii c)%nat with false by done.
    replace (Ascii.eqb c "-") with false by done.
    replace (Ascii.eqb c "+") with false by done.
    cbn [take_digits]. replace (is_digit c) with false by done.
    cbn [mbind outcome_bind number_key]. unfold set, store.
    change (String.eqb "NaN" "length") with false.
    change (array_index "NaN") with (@None nat).
    by destruct (own_get ps "NaN"). }
  intros Hkey. split; [by apply Hone|].
  intros lastKey' value' Hkey'. rewrite Hone by done.
  by rewrite own_set_twice.
Qed.

Lemma place_without_number_witness :
  place (JArr [] []) "name" (JStr "x")
    = Ok (JArr [] (own_set [] "NaN" (JStr "x"))) /\
  (forall lastKey' value',
     starts_without_number lastKey' = true ->
     place (JArr [] (own_set [] "NaN" (JStr "x"))) lastKey' value'
     = Ok (JArr [] (own_set [] "NaN" value'))).
Proof.
  apply (place_without_number [] [] "name" (JStr "x")). reflexivity.
Defined.

(** ** The accumulator of the encoder *)

Lemma after_existing_twice e1 e2 r :
  after_existing e1 (after_existing e2 r) = after_existing (e1 ++ e2) r.
Proof.
  destruct r as [[fm visited]| | |]; try done. unfold after_existing. simpl.
  by rewrite (assoc_L (++)).
Qed.

Lemma after_existing_bind existing r (k : gset loc -> gset loc) :
  after_existing existing
    (st ← r; Ok {| form := form st; seen := k (seen st) |})
  = (st ← after_existing existing r;
     Ok {| form := form st; seen := k (seen st) |}).
Proof. by destruct r as [[fm visited]| | |]. Qed.

Lemma foldM_existing {B : Type} (f : enc_state -> B -> outcome enc_state) l :
  (forall fm visited b,
     f {| form := fm; seen := visited |} b
     = after_existing fm (f {| form := []; seen := visited |} b)) ->
  forall fm visited,
    foldM f {| form := fm; seen := visited |} l
    = after_existing fm (foldM f {| form := []; seen := visited |} l).
Proof.
  intros Hf. induction l as [|b l IH]; intros fm visited.
  - unfold after_existing. simpl. by rewrite app_nil_r.
  - cbn [foldM]. rewrite Hf.
    destruct (f {| form := []; seen := visited |} b) as [[fm1 v1]| | |];
      try done.
    unfold after_existing at 1. cbn [mbind outcome_bind form seen].
    rewrite IH, (IH fm1). by rewrite after_existing_twice.
Qed.

(** Serializing into existing entries is serializing on their right. *)
Lemma fromObject_existing h : forall fuel obj existing visited namespace,
  fromObject fuel h obj {| form := existing; seen := visited |} namespace
  = after_existing existing
      (fromObject fuel h obj {| form := []; seen := visited |} namespace).
Proof.
  induction fuel as [|fuel IH]; intros obj existing visited namespace;
    [done|].
  destruct obj as [| | b | text | s | | a]; cbn [fromObject];
    try (unfold after_existing, append; simpl; by rewrite ?app_nil_r).
  cbn [seen form]. case_bool_decide; [done|].
  destruct (h !! a) as [o|]; [|done].
  rewrite (after_existing_bind existing _ (fun v => v ∖ {[a]})).
  f_equal.
  destruct o as [iso| | |items|entries|items|props];
    try (unfold after_existing, append; simpl; by rewrite ?app_nil_r);
    apply foldM_existing; intros fm v [k c]; cbn [fst snd]; try apply IH.
  - destruct (map_form_key namespace k); cbn [mbind outcome_bind];
      [apply IH|done..].
  - destruct c; try apply IH.
    unfold after_existing. simpl. by rewrite app_nil_r.
Qed.

(** X10.  [fromObject] only ever appends: called with a form that holds
    entries already, it returns them followed by exactly the entries that
    the same call returns on an empty form, fails exactly when that call
    fails, and when it returns, the set of visited objects is what it was
    before the call. *)
Theorem fromObject_appends h fuel obj existing visited namespace :
  fromObject fuel h obj {| form := existing; seen := visited |} namespace
  = after_existing existing
      (fromObject fuel h obj {| form := []; seen := visited |} namespace) /\
  (forall st',
     fromObject fuel h obj {| form := existing; seen := visited |} namespace
       = Ok st' ->
     seen st' = visited /\ exists added, form st' = existing ++ added).
Proof.
  split; [apply fromObject_existing|].
  intros st' Hok. split; [by apply fromObject_seen in Hok|].
  rewrite fromObject_existing in Hok.
  destruct (fromObject fuel h obj _ namespace) as [st| | |]; try done.
  injection Hok as <-. by exists (form st).
Qed.

Lemma fromObject_appends_witness :
  seen {| form := [("a", EText "1"); ("b", EText "x")]; seen := ∅ |} = ∅ /\
  exists added,
    form {| form := [("a", EText "1"); ("b", EText "x")]; seen := ∅ |}
    = [("a", EText "1")] ++ added.
Proof.
  apply (proj2 (fromObject_appends ∅ 1 (VStr "x") [("a", EText "1")] ∅
                  (Some "b"))).
  reflexivity.
Defined.

(** ** Collections that encode alike *)

(** One step of a call on an object. *)
Lemma fromObject_enter fuel h a st namespace :
  fromObject (S fuel) h (VRef a) st namespace =
    if bool_decide (a ∈ seen st) then Throws CyclicReference
    else
      match h !! a with
      | None => Beyond
      | Some o =>
          st2 ← match o with
                | ODate iso =>
                    Ok (append {| form := form st; seen := {[a]} ∪ seen st |}
                          (ns_name namespace) (EText iso))
                | OInvalidDate => Throws RangeError
                | OBlob =>
                    Ok (append {| form := form st; seen := {[a]} ∪ seen st |}
                          (ns_name namespace) (EBlob a))
                | OArray items | OSet items =>
                    foldM (fun st kv =>
                             fromObject fuel h kv.2 st
                               (Some (child_key namespace kv.1)))
                          {| form := form st; seen := {[a]} ∪ seen st |}
                          (indexed 0 items)
                | OMap entries =>
                    foldM (fun st kv =>
                             formKey ← map_form_key namespace kv.1;
                             fromObject fuel h kv.2 st (Some formKey))
                          {| form := form st; seen := {[a]} ∪ seen st |}
                          entries
                | OPlain props =>
                    foldM (fun st kv =>
                             match kv.2 with
                             | VUndef => Ok st
                             | _ => fromObject fuel h kv.2 st
                                      (Some (child_key namespace kv.1))
                             end)
                          {| form := form st; seen := {[a]} ∪ seen st |}
                          props
                end;
          Ok {| form := form st2; seen := seen st2 ∖ {[a]} |}
      end.
Proof. reflexivity. Qed.

(** X11.  A [Set] is encoded as the array of its items in iteration order:
    replacing the one by the other in the heap changes nothing in what a
    call returns. *)
Theorem set_encodes_as_array h a items fuel st namespace :
  h !! a = Some (OSet items) ->
  fromObject fuel h (VRef a) st namespace
  = fromObject fuel (<[a := OArray items]> h) (VRef a) st namespace.
Proof.
  intros Ha. destruct fuel as [|fuel]; [done|]. cbn [fromObject].
  case_bool_decide as Hseen; [done|].
  rewrite Ha, lookup_insert_eq. f_equal.
  apply (foldM_ext_seen a).
  - intros ? ? ?. apply fromObject_seen.
  - intros ? ? ?. by apply fromObject_heap_update.
  - cbn [seen]. set_solver.
Qed.

Lemma set_encodes_as_array_witness :
  fromObject 3 {[ 0 := OSet [VStr "x"; VNum "2"] ]} (VRef 0) fresh None
  = fromObject 3 (<[0 := OArray [VStr "x"; VNum "2"]]>
                    {[ 0 := OSet [VStr "x"; VNum "2"] ]}) (VRef 0) fresh None.
Proof.
  apply (set_encodes_as_array {[ 0 := OSet [VStr "x"; VNum "2"] ]} 0
           [VStr "x"; VNum "2"] 3 fresh None).
  reflexivity.
Defined.

Lemma foldM_text_keys {A : Type} (f : A -> string * value -> outcome A)
  (g : A -> map_key * value -> outcome A) (props : list (string * value)) :
  (forall st kv, g st (KText kv.1, kv.2) = f st kv) ->
  forall st,
    foldM g st (map (fun kv => (KText kv.1, kv.2)) props) = foldM f st props.
Proof.
  intros Hfg. induction props as [|kv props IH]; intros st; [done|].
  cbn [map foldM]. rewrite Hfg. destruct (f st kv); try done. apply IH.
Qed.

(** X12.  A [Map] whose keys are no symbols and have distinct string
    forms, in the order in which a plain object enumerates its keys (the
    array indices first, in ascending order), is encoded as the plain
    object with these keys and values, entry by entry: the object skips a
    value that is [undefined], the [Map] makes the call for it, which adds
    nothing (the call needs fuel for one level of children). *)
Theorem map_encodes_as_object h a props fuel st namespace :
  h !! a = Some (OMap (map (fun kv => (KText kv.1, kv.2)) props)) ->
  NoDup props.*1 ->
  key_order props.*1 = props.*1 ->
  fromObject (S (S fuel)) h (VRef a) st namespace
  = fromObject (S (S fuel)) (<[a := OPlain props]> h) (VRef a) st namespace.
Proof.
  intros Ha _ _. rewrite !fromObject_enter.
  case_bool_decide as Hseen; [done|].
  rewrite Ha, lookup_insert_eq. f_equal.
  rewrite (foldM_text_keys
             (fun st kv => fromObject (S fuel) h kv.2 st
                             (Some (child_key namespace kv.1)))) by done.
  apply (foldM_ext_seen a).
  - intros ? ? ?. apply (fromObject_seen h (S fuel)).
  - intros st' [k c] Hst'. cbn [fst snd].
    rewrite (fromObject_heap_update h a (OPlain props) (S fuel)) by done.
    by destruct c.
  - cbn [seen]. set_solver.
Qed.

Lemma map_encodes_as_object_witness :
  fromObject 2
    {[ 0 := OMap (map (fun kv => (KText kv.1, kv.2))
                      [("1", VStr "y"); ("k", VStr "x"); ("u", VUndef)]) ]}
    (VRef 0) fresh None
  = fromObject 2
      (<[0 := OPlain [("1", VStr "y"); ("k", VStr "x"); ("u", VUndef)]]>
         {[ 0 := OMap (map (fun kv => (KText kv.1, kv.2))
                           [("1", VStr "y"); ("k", VStr "x");
                            ("u", VUndef)]) ]})
      (VRef 0) fresh None.
Proof.
  apply (map_encodes_as_object
           {[ 0 := OMap (map (fun kv => (KText kv.1, kv.2))
                             [("1", VStr "y"); ("k", VStr "x");
                              ("u", VUndef)]) ]} 0
           [("1", VStr "y"); ("k", VStr "x"); ("u", VUndef)] 0 fresh None).
  - reflexivity.
  - by apply (bool_decide_unpack _).
  - reflexivity.
Defined.

(** A [Map] keeps the order of insertion where a plain object puts the
    array indices first: the [Map] of [b] then [1] is sent as [b], [1],
    the object with these keys as [1], [b]. *)
Example map_order_is_insertion_order :
  encode {[ 0 := OMap [(KText "b", VStr "x"); (KText "1", VStr "y")] ]}
         (VRef 0)
    = Ok [("b", EText "x"); ("1", EText "y")] /\
  key_order ["b"; "1"] = ["1"; "b"] /\
  encode {[ 0 := OPlain [("1", VStr "y"); ("b", VStr "x")] ]} (VRef 0)
    = Ok [("1", EText "y"); ("b", EText "x")].
Proof. repeat split. Qed.

(** ** Collections of leaves *)

Lemma foldM_shallow {B : Type} h namespace visited
  (f : enc_state -> B -> outcome enc_state) (entry : B -> string * value) l :
  (forall st b, b ∈ l -> seen st = visited ->
     f st b = Ok {| form := form st ++ shallow_entry h namespace (entry b);
                    seen := visited |}) ->
  forall st, seen st = visited ->
    foldM f st l
    = Ok {| form := form st
                    ++ flat_map (shallow_entry h namespace) (map entry l);
            seen := visited |}.
Proof.
  induction l as [|b l IH]; intros Hf st Hst.
  - simpl. rewrite app_nil_r. destruct st. simpl in Hst. by subst.
  - cbn [foldM map flat_map]. rewrite (Hf st b) by (done || left).
    cbn [mbind outcome_bind]. rewrite IH; [|by intros; apply Hf; [right|]|done].
    cbn [form]. by rewrite (assoc_L (++)).
Qed.

Lemma shallow_child h a o fuel st c formKey :
  h !! a = Some o ->
  is_collection o = true ->
  shallow h c = true ->
  seen st = {[a]} ->
  fromObject (S fuel) h c st (Some formKey)
  = Ok {| form := form st ++ match leaf_entry h c with
                             | Some e => [(formKey, e)]
                             | None => []
                             end;
          seen := {[a]} |}.
Proof.
  intros Ha Hcoll Hc Hst. destruct st as [fm visited]. simpl in Hst. subst.
  destruct c as [| | b | text | s | | b]; cbn [fromObject leaf_entry];
    try (by rewrite ?app_nil_r).
  simpl in Hc. cbn [seen form].
  destruct (h !! b) as [ob|] eqn:Hb; [|done].
  assert (b <> a) as Hne.
  { intros ->. rewrite Ha in Hb. injection Hb as <-.
    by destruct o. }
  rewrite bool_decide_eq_false_2 by set_solver.
  destruct ob as [iso| | | | | |]; try done;
    unfold append; simpl; do 2 f_equal; set_solver.
Qed.

Lemma map_form_key_converts namespace key :
  match key with
  | KSymbol _ => negb (truthy namespace)
  | KText _ => true
  end = true ->
  map_form_key namespace key = Ok (child_key namespace (key_text key)).
Proof.
  destruct key as [text|description]; [done|]. cbn [map_form_key].
  intros Hfalsy. apply negb_true_iff in Hfalsy. rewrite Hfalsy.
  destruct namespace as [ns|]; [|done]. simpl in *.
  by destruct (bool_decide (ns = "")).
Qed.

Lemma fromObject_shallow h a o fuel st namespace :
  h !! a = Some o ->
  is_collection o = true ->
  keys_convert namespace o = true ->
  Forall (fun kv => shallow h kv.2 = true) (entries_of o) ->
  seen st = ∅ ->
  fromObject (S (S fuel)) h (VRef a) st namespace
  = Ok {| form := form st ++ flat_map (shallow_entry h namespace)
                                      (entries_of o);
          seen := ∅ |}.
Proof.
  intros Ha Hcoll Hkeys Hall Hst. rewrite fromObject_enter, Hst.
  rewrite bool_decide_eq_false_2 by set_solver. rewrite Ha.
  assert (Hin : forall kv, kv ∈ entries_of o -> shallow h kv.2 = true).
  { by apply list.Forall_forall. }
  assert (Hunion : ({[a]} ∪ ∅ : gset loc) = {[a]}) by set_solver.
  rewrite Hunion in *.
  assert (Hexit : forall fm,
    Ok {| form := fm; seen := ({[a]} : gset loc) ∖ {[a]} |}
    = (Ok {| form := fm; seen := ∅ |} : outcome enc_state)).
  { intros fm. do 2 f_equal. set_solver. }
  assert (Hchild : forall st' k c,
    shallow h c = true -> seen st' = {[a]} ->
    fromObject (S fuel) h c st' (Some (child_key namespace k))
    = Ok {| form := form st' ++ shallow_entry h namespace (k, c);
            seen := {[a]} |}).
  { intros st' k c Hc Hst'.
    by apply (shallow_child h a o fuel st' c _ Ha). }
  destruct o as [iso| | |items|entries|items|props]; try done;
    cbn [entries_of] in *.
  - rewrite (foldM_shallow h namespace {[a]} _ id).
    + rewrite map_id. cbn [mbind outcome_bind form seen]. apply Hexit.
    + intros st' [k c] Hkv Hst'. apply Hchild; [|done]. by apply (Hin (k, c)).
    + done.
  - rewrite (foldM_shallow h namespace {[a]} _
               (fun kv : map_key * value => (key_text kv.1, kv.2))).
    + cbn [mbind outcome_bind form seen]. apply Hexit.
    + intros st' [k c] Hkv Hst'. cbn [fst snd].
      rewrite map_form_key_converts.
      * cbn [mbind outcome_bind]. apply Hchild; [|done].
        apply (Hin (key_text k, c)).
        by apply (list_elem_of_fmap_2
                    (fun kv : map_key * value => (key_text kv.1, kv.2))
                    entries (k, c)).
      * cbn [keys_convert] in Hkeys.
        apply (proj1 (forallb_forall _ _) Hkeys (k, c)).
        by apply list_elem_of_In.
    + done.
  - rewrite (foldM_shallow h namespace {[a]} _ id).
    + rewrite map_id. cbn [mbind outcome_bind form seen]. apply Hexit.
    + intros st' [k c] Hkv Hst'. apply Hchild; [|done]. by apply (Hin (k, c)).
    + done.
  - rewrite (foldM_shallow h namespace {[a]} _ id).
    + rewrite map_id. cbn [mbind outcome_bind form seen]. apply Hexit.
    + intros st' [k c] Hkv Hst'. cbn [fst snd id].
      pose proof (Hin (k, c) Hkv) as Hc. cbn [snd] in Hc.
      destruct c; try (by apply Hchild).
      unfold shallow_entry. simpl. rewrite app_nil_r.
      destruct st'. simpl in Hst'. by subst.
    + done.
Qed.

(** X13.  A collection (array, [Set], [Map] or plain object) whose
    children are no collections and no invalid dates, and whose keys
    convert to strings (no symbol is the key of a [Map] that is encoded
    under a namespace), adds one entry per leaf child, in iteration order,
    under [namespace[key]] (or [key] without namespace), the key of an
    element being its index; [null], [undefined] and unsupported children
    add nothing, and in an array they do not shift the indices of the
    elements after them. *)
Theorem collection_of_leaves h a o fuel st namespace :
  h !! a = Some o ->
  is_collection o = true ->
  keys_convert namespace o = true ->
  Forall (fun kv => shallow h kv.2 = true) (entries_of o) ->
  seen st = ∅ ->
  fromObject (S (S fuel)) h (VRef a) st namespace
  = Ok {| form := form st ++ flat_map (shallow_entry h namespace)
                                      (entries_of o);
          seen := ∅ |}.
Proof. apply fromObject_shallow. Qed.

Lemma collection_of_leaves_witness :
  fromObject 2
    (list_to_map [ (0, OArray [VStr "a"; VNull; VRef 1; VBool true]);
                   (1, ODate "1995-12-17T00:00:00.000Z") ])
    (VRef 0) fresh (Some "list")
  = Ok {| form := [("list[0]", EText "a");
                   ("list[2]", EText "1995-12-17T00:00:00.000Z");
                   ("list[3]", EText "true")];
          seen := ∅ |}.
Proof.
  etrans.
  - apply (collection_of_leaves
             (list_to_map [ (0, OArray [VStr "a"; VNull; VRef 1; VBool true]);
                            (1, ODate "1995-12-17T00:00:00.000Z") ])
             0 (OArray [VStr "a"; VNull; VRef 1; VBool true]) 0 fresh
             (Some "list")).
    + reflexivity.
    + reflexivity.
    + reflexivity.
    + repeat constructor.
    + reflexivity.
  - reflexivity.
Defined.

(** The children that the property leaves out make the call throw: an
    invalid [Date] among the elements, a symbol as the key of a [Map]
    under a namespace. *)
Example collection_children_that_throw :
  fromObject 2
    (list_to_map [ (0, OArray [VStr "a"; VRef 1]); (1, OInvalidDate) ])
    (VRef 0) fresh (Some "list") = Throws RangeError /\
  fromObject 2 {[ 0 := OMap [(KSymbol "s", VStr "x")] ]} (VRef 0) fresh
    (Some "m") = Throws TypeError /\
  fromObject 2 {[ 0 := OMap [(KSymbol "s", VStr "x")] ]} (VRef 0) fresh None
    = Ok {| form := [("Symbol(s)", EText "x")]; seen := ∅ |}.
Proof. repeat split. Qed.

(** ** The round trip of a flat object *)

Lemma leaf_text_entry h obj text :
  leaf_text h obj = Some text -> leaf_entry h obj = Some (EText text).
Proof.
  destruct obj; simpl; try done; try (by intros [= <-]).
  destruct (h !! a) as [[]|]; try done. by intros [= <-].
Qed.

Lemma flat_entries h props :
  Forall (fun kv => is_Some (leaf_text h kv.2)) props ->
  flat_map (shallow_entry h None) props
  = map (fun kv => (kv.1, EText (default "" (leaf_text h kv.2)))) props.
Proof.
  induction 1 as [|[k c] props [text Htext] Hall IH]; [done|].
  cbn [flat_map map fst snd]. rewrite IH. unfold shallow_entry.
  cbn [fst snd] in *. by rewrite (leaf_text_entry _ _ _ Htext), Htext.
Qed.

Lemma leaf_is_shallow h obj : is_Some (leaf_text h obj) -> shallow h obj = true.
Proof.
  intros [e He]. destruct obj; try done. simpl in *.
  by destruct (h !! a) as [[]|].
Qed.

(** X14.  A plain object whose values are strings, numbers, booleans and
    dates with a valid time, and whose keys are distinct plain segments,
    no inherited name among them, survives the round trip: its encoding
    returns, and decoding it gives the mapping of its keys, in the order
    in which the object enumerates them, to the text of each primitive and
    the ISO text of each date. *)
Theorem flat_object_round_trip h a props :
  h !! a = Some (OPlain props) ->
  NoDup props.*1 ->
  Forall (fun kv => plain_segment kv.1 = true /\
                    (kv.1 ∉ object_prototype_names) /\
                    is_Some (leaf_text h kv.2)) props ->
  exists fd,
    encode h (VRef a) = Ok fd /\
    toObject fd
    = Ok (JObj (map (fun kv => (kv.1, JStr (default "" (leaf_text h kv.2))))
                    props)).
Proof.
  intros Ha Hnodup Hall.
  assert (Hleaves : Forall (fun kv => is_Some (leaf_text h kv.2)) props).
  { eapply Forall_impl; [exact Hall|]. by intros kv (_ & _ & ?). }
  assert (Hfuel : exists fuel, S (size h) = S (S fuel)).
  { destruct (size h) as [|n] eqn:Hsize; [|eauto].
    apply map_size_empty_iff in Hsize. subst h.
    by rewrite lookup_empty in Ha. }
  destruct Hfuel as [fuel Hfuel].
  exists (map (fun kv => (kv.1, EText (default "" (leaf_text h kv.2)))) props).
  split.
  - unfold encode. rewrite Hfuel.
    rewrite (fromObject_shallow h a (OPlain props)); try done.
    + cbn [mbind outcome_bind form]. unfold fresh. cbn [form app].
      by rewrite flat_entries.
    + eapply Forall_impl; [exact Hleaves|]. intros kv. apply leaf_is_shallow.
  - unfold toObject. rewrite (decode_flat _ []).
    + cbn [app]. by rewrite map_map.
    + cbn [fmap app]. rewrite <- list_fmap_compose.
      replace (fst ∘ (fun kv : string * value =>
                 (kv.1, EText (default "" (leaf_text h kv.2)))))
        with (fst : string * value -> string) by done.
      done.
    + apply Forall_map. eapply Forall_impl; [exact Hall|].
      by intros kv (? & ? & _).
Qed.

Lemma flat_object_round_trip_witness :
  exists fd,
    encode (list_to_map [ (0, OPlain [("title", VStr "t"); ("when", VRef 2);
                                      ("n", VNum "7"); ("ok", VBool true)]);
                          (2, ODate "1995-12-17T00:00:00.000Z") ])
           (VRef 0) = Ok fd /\
    toObject fd
    = Ok (JObj (map (fun kv =>
                       (kv.1,
                        JStr (default ""
                          (leaf_text
                             (list_to_map
                                [ (0, OPlain [("title", VStr "t");
                                              ("when", VRef 2);
                                              ("n", VNum "7");
                                              ("ok", VBool true)]);
                                  (2, ODate "1995-12-17T00:00:00.000Z") ])
                             kv.2))))
                    [("title", VStr "t"); ("when", VRef 2);
                     ("n", VNum "7"); ("ok", VBool true)])).
Proof.
  apply (flat_object_round_trip
           (list_to_map [ (0, OPlain [("title", VStr "t"); ("when", VRef 2);
                                      ("n", VNum "7"); ("ok", VBool true)]);
                          (2, ODate "1995-12-17T00:00:00.000Z") ])
           0 [("title", VStr "t"); ("when", VRef 2);
              ("n", VNum "7"); ("ok", VBool true)]).
  - reflexivity.
  - by apply (bool_decide_unpack _).
  - repeat constructor; try (by apply (bool_decide_unpack _)); by eexists.
Defined.

(** * [TextUtil] *)

(** X15.  [pluralize] throws exactly when it is given neither two nor
    three forms; given two or three, it returns one of them for every
    integer, never [undefined]. *)
Theorem pluralize_returns_a_title num titles :
  (length titles <> 2 /\ length titles <> 3 ->
   pluralize num titles = Raises "Titles array must have 2 or 3 elements") /\
  (length titles = 2 \/ length titles = 3 ->
   exists title, pluralize num titles = Returns (Some title) /\
                 title ∈ titles).
Proof.
  split.
  - intros [H2 H3]. unfold pluralize.
    apply Nat.eqb_neq in H2, H3. by rewrite H2, H3.
  - unfold pluralize.
    pose proof (Z.mod_pos_bound (Z.abs num) 10 ltac:(lia)) as Hmod.
    intros [Hlen|Hlen].
    + destruct titles as [|t0 [|t1 [|]]]; try done. simpl.
      destruct (Z.abs num =? 1)%Z; eexists; (split; [done|]); set_solver.
    + destruct titles as [|t0 [|t1 [|t2 [|]]]]; try done. simpl.
      destruct (_ && _); [eexists; split; [done|set_solver]|].
      destruct (Z.abs num `mod` 10 <? 5)%Z eqn:Hlt;
        [|eexists; split; [done|set_solver]].
      apply Z.ltb_lt in Hlt.
      assert (Z.abs num `mod` 10 = 0 \/ Z.abs num `mod` 10 = 1 \/
              Z.abs num `mod` 10 = 2 \/ Z.abs num `mod` 10 = 3 \/
              Z.abs num `mod` 10 = 4)%Z as Hcases by lia.
      destruct Hcases as [->|[->|[->|[->| ->]]]];
        eexists; (split; [done|]); set_solver.
Qed.

Lemma pluralize_returns_a_title_witness :
  exists title,
    pluralize 21 ["day"; "days"] = Returns (Some title) /\
    title ∈ ["day"; "days"].
Proof.
  apply (proj2 (pluralize_returns_a_title 21 ["day"; "days"])).
  by left.
Defined.

(** X16.  With three forms [one], [few], [many], an integer gets [one]
    when it ends in 1 but not in 11, [few] when it ends in 2, 3 or 4 but
    not in 12, 13 or 14, and [many] otherwise; with two forms it gets the
    first exactly when its absolute value is 1. *)
Theorem pluralize_rule num one few many :
  pluralize num [one; few; many] =
    Returns (Some
      (if ((Z.abs num mod 10 =? 1) && negb (Z.abs num mod 100 =? 11))%Z
       then one
       else if ((2 <=? Z.abs num mod 10) && (Z.abs num mod 10 <=? 4)
                && negb ((12 <=? Z.abs num mod 100)
                         && (Z.abs num mod 100 <=? 14)))%Z
            then few
            else many)) /\
  pluralize num [one; few] =
    Returns (Some (if (Z.abs num =? 1)%Z then one else few)).
Proof.
  split; [|unfold pluralize; simpl; by destruct (Z.abs num =? 1)%Z].
  unfold pluralize. cbn [length Nat.eqb negb andb].
  set (n := Z.abs num).
  assert (0 <= n)%Z as Hn by (subst n; lia).
  pose proof (Z.mod_pos_bound n 10 ltac:(lia)) as H10.
  pose proof (Z.mod_pos_bound n 100 ltac:(lia)) as H100.
  assert (Hrel : (n mod 10 = (n mod 100) mod 10)%Z).
  { symmetry. apply Z.mod_mod_divide. by exists 10%Z. }
  destruct ((4 <? n mod 100) && (n mod 100 <? 20))%Z eqn:Hteen.
  - apply andb_true_iff in Hteen as [Hlo Hhi].
    apply Z.ltb_lt in Hlo, Hhi.
    assert (n mod 10 = n mod 100 \/ n mod 10 = n mod 100 - 10)%Z as Hd.
    { assert (n mod 100 < 10 \/ 10 <= n mod 100)%Z as [?|?] by lia.
      - left. rewrite Hrel. by rewrite Z.mod_small by lia.
      - right. rewrite Hrel.
        replace (n mod 100)%Z with ((n mod 100 - 10) + 1 * 10)%Z at 1 by lia.
        rewrite Z.mod_add by lia. by rewrite Z.mod_small by lia. }
    repeat case_match; try done;
      repeat match goal with
             | H : (_ && _) = true |- _ => apply andb_true_iff in H as [? ?]
             | H : negb _ = true |- _ => apply negb_true_iff in H
             | H : (_ =? _)%Z = true |- _ => apply Z.eqb_eq in H
             | H : (_ =? _)%Z = false |- _ => apply Z.eqb_neq in H
             | H : (_ <=? _)%Z = true |- _ => apply Z.leb_le in H
             | H : (_ && _) = false |- _ => apply andb_false_iff in H
             | H : (_ <=? _)%Z = false |- _ => apply Z.leb_gt in H
             end; exfalso; lia.
  - assert (n mod 100 <= 4 \/ 20 <= n mod 100)%Z as Hout.
    { apply andb_false_iff in Hteen as [H|H]; apply Z.ltb_ge in H; lia. }
    assert (n mod 10 = 0 \/ n mod 10 = 1 \/ n mod 10 = 2 \/ n mod 10 = 3
            \/ n mod 10 = 4 \/ 5 <= n mod 10)%Z as Hcases by lia.
    assert (Hnot11 : (n mod 100 =? 11)%Z = false) by (apply Z.eqb_neq; lia).
    assert (Hnot12 : ((12 <=? n mod 100) && (n mod 100 <=? 14))%Z = false).
    { apply andb_false_iff.
      destruct Hout; [left|right]; apply Z.leb_gt; lia. }
    rewrite Hnot11, Hnot12.
    destruct Hcases as [H|[H|[H|[H|[H|H]]]]]; try (rewrite H; reflexivity).
    assert ((n mod 10 <? 5)%Z = false) as -> by (apply Z.ltb_ge; lia).
    assert ((n mod 10 =? 1)%Z = false) as -> by (apply Z.eqb_neq; lia).
    assert ((n mod 10 <=? 4)%Z = false) as -> by (apply Z.leb_gt; lia).
    by rewrite andb_false_r.
Qed.

(** X17.  The form depends on the absolute value only, and with three
    forms on the last two digits only: [-num] gets the form of [num], and
    [num + 100] gets the form of [num] when [num] is not negative. *)
Theorem pluralize_sign_and_period num titles :
  pluralize (- num) titles = pluralize num titles /\
  ((0 <= num)%Z -> length titles = 3 ->
   pluralize (num + 100) titles = pluralize num titles).
Proof.
  split.
  - unfold pluralize. by rewrite Z.abs_opp.
  - intros Hnum Hlen. unfold pluralize. rewrite Hlen. simpl.
    rewrite !Z.abs_eq by lia.
    replace ((num + 100) mod 100)%Z with (num mod 100)%Z
      by (replace (num + 100)%Z with (num + 1 * 100)%Z by lia;
          by rewrite Z.mod_add).
    replace ((num + 100) mod 10)%Z with (num mod 10)%Z
      by (replace (num + 100)%Z with (num + 10 * 10)%Z by lia;
          by rewrite Z.mod_add).
    done.
Qed.

Lemma pluralize_sign_and_period_witness :
  pluralize (12 + 100) ["one"; "few"; "many"]
  = pluralize 12 ["one"; "few"; "many"].
Proof.
  apply (proj2 (pluralize_sign_and_period 12 ["one"; "few"; "many"]));
    [lia|reflexivity].
Defined.

(** X18.  [truncate] returns a text that fits as it is.  A text that does
    not fit is cut to its first [maxLength] code units and the ellipsis is
    added after them, so the result has [maxLength] units plus those of
    the ellipsis; a negative [maxLength] cuts that many units off the end
    of the text instead. *)
Theorem truncate_cut {U : Type} (text ellipsis : list U) (maxLength : Z) :
  ((Z.of_nat (length text) <= maxLength)%Z ->
   truncate text maxLength ellipsis = text) /\
  ((0 <= maxLength < Z.of_nat (length text))%Z ->
   truncate text maxLength ellipsis
     = take (Z.to_nat maxLength) text ++ ellipsis /\
   Z.of_nat (length (truncate text maxLength ellipsis))
     = (maxLength + Z.of_nat (length ellipsis))%Z) /\
  ((maxLength < 0)%Z ->
   truncate text maxLength ellipsis
     = take (length text - Z.to_nat (- maxLength)) text ++ ellipsis).
Proof.
  unfold truncate, slice_to. split; [|split].
  - intros H. apply Z.leb_le in H. by rewrite H.
  - intros [Hlo Hhi].
    assert ((Z.of_nat (length text) <=? maxLength)%Z = false) as ->
      by (apply Z.leb_gt; lia).
    assert ((maxLength <? 0)%Z = false) as -> by (apply Z.ltb_ge; lia).
    split; [done|]. rewrite length_app, length_take. lia.
  - intros Hneg.
    assert ((Z.of_nat (length text) <=? maxLength)%Z = false) as ->
      by (apply Z.leb_gt; lia).
    assert ((maxLength <? 0)%Z = true) as -> by (apply Z.ltb_lt; lia).
    do 2 f_equal. lia.
Qed.

Lemma truncate_cut_witness :
  truncate [1; 2; 3; 4; 5] 2 [0; 0; 0]
  = take (Z.to_nat 2) [1; 2; 3; 4; 5] ++ [0; 0; 0] /\
  Z.of_nat (length (truncate [1; 2; 3; 4; 5] 2 [0; 0; 0]))
  = (2 + Z.of_nat (length [0; 0; 0]))%Z.
Proof.
  apply (proj1 (proj2 (truncate_cut [1; 2; 3; 4; 5] [0; 0; 0] 2))).
  simpl. lia.
Defined.
